(** * cache/cache.cc: owner-id allocation and cache construction from strings

    A shallow embedding of [Cache::ItemOwnerIdAllocator] (Allocate / Free),
    of the two thin delegations [Cache::GetNextItemOwnerId] and
    [Cache::DiscardItemOwnerId], and of the two string-driven constructors
    [SecondaryCache::CreateFromString] and [Cache::CreateFromString].

    The allocator serialises every call on [free_ids_mutex_]; the embedding
    is the sequential behaviour of one call under that lock. *)

From Stdlib Require Import ZArith Ascii String Lia.
From stdpp Require Import base list gmap strings.

Local Open Scope Z_scope.
#[local] Set Warnings "-clear-no-such-hyp".

(** ** Constants of [rocksdb/cache.h]

    The header that declares [ItemOwnerId], [kUnknownItemId],
    [kMinOwnerItemId], [kMaxOwnerItemId] and [kMaxFreeItemOwnersIdListSize]
    is not part of the sources at hand, so they are a parameter of the
    development.  [ItemOwnerId_modulus] is [2^w] for the [w]-bit unsigned
    [ItemOwnerId]. *)
Class OwnerIdConsts := {
  ItemOwnerId_modulus : Z;
  kUnknownItemId : Z;
  kMinOwnerItemId : Z;
  kMaxOwnerItemId : Z;
  kMaxFreeItemOwnersIdListSize : Z
}.

(** What the proofs about whole call sequences need of the constants: the
    counter starts inside the representable range and below its maximum. *)
Definition consts_in_range `{OwnerIdConsts} : Prop :=
  0 <= kMinOwnerItemId /\ kMinOwnerItemId <= kMaxOwnerItemId /\
  kMaxOwnerItemId < ItemOwnerId_modulus.

(** A 16-bit instance, used to run the definitions on concrete inputs. *)
Definition uint16_consts : OwnerIdConsts := {|
  ItemOwnerId_modulus := 65536;
  kUnknownItemId := 0;
  kMinOwnerItemId := 1;
  kMaxOwnerItemId := 65535;
  kMaxFreeItemOwnersIdListSize := 10000
|}.

(** A tiny instance (ids 1..3, a free list of at most one entry) on which
    exhaustion and the full free list are reached in a few calls. *)
Definition tiny_consts : OwnerIdConsts := {|
  ItemOwnerId_modulus := 4;
  kUnknownItemId := 0;
  kMinOwnerItemId := 1;
  kMaxOwnerItemId := 3;
  kMaxFreeItemOwnersIdListSize := 1
|}.

(** ** Status codes

    Modelled from the spec: the [Status] class is declared outside the
    sources at hand.  A status carries success or one kind of the error
    taxonomy, and the two message parts it was built from. *)
Inductive Code :=
  | kOk | kInvalidArgument | kNotSupported | kMemoryLimitExceeded
  | kResourceExhausted | kCorruption.

Record Status := { code : Code; msg : string; msg2 : string }.

(** [Status::ok()] *)
Definition ok (s : Status) : bool :=
  match code s with kOk => true | _ => false end.

(** [Status()] *)
Definition Status_OK : Status :=
  {| code := kOk; msg := EmptyString; msg2 := EmptyString |}.

(** [Status::NotSupported(msg, msg2)] *)
Definition Status_NotSupported (m m2 : string) : Status :=
  {| code := kNotSupported; msg := m; msg2 := m2 |}.

(** [Status::InvalidArgument(msg, msg2)] *)
Definition Status_InvalidArgument (m m2 : string) : Status :=
  {| code := kInvalidArgument; msg := m; msg2 := m2 |}.

Module OwnerId.
Section Allocator.
Context `{K : OwnerIdConsts}.

(** The data members of [Cache::ItemOwnerIdAllocator] ([free_ids_mutex_]
    apart). [free_ids_] is a [std::list<ItemOwnerId>], front first. *)
Record ItemOwnerIdAllocator := {
  next_item_owner_id_ : Z;
  has_wrapped_around_ : bool;
  free_ids_ : list Z
}.

(** [next_item_owner_id_++] on the unsigned [ItemOwnerId]. *)
Definition incr_id (z : Z) : Z := (z + 1) mod ItemOwnerId_modulus.

(** [Cache::ItemOwnerIdAllocator::Allocate]: the allocator after the call
    and the id returned. *)
Definition Allocate (a : ItemOwnerIdAllocator) : ItemOwnerIdAllocator * Z :=
  match free_ids_ a with
  | allocated_id :: rest =>
      ({| next_item_owner_id_ := next_item_owner_id_ a;
          has_wrapped_around_ := has_wrapped_around_ a;
          free_ids_ := rest |}, allocated_id)
  | [] =>
      if has_wrapped_around_ a then (a, kUnknownItemId)
      else
        let allocated_id := next_item_owner_id_ a in
        ({| next_item_owner_id_ := incr_id allocated_id;
            has_wrapped_around_ :=
              if allocated_id =? kMaxOwnerItemId then true
              else has_wrapped_around_ a;
            free_ids_ := free_ids_ a |}, allocated_id)
  end.

(** [Cache::ItemOwnerIdAllocator::Free(ItemOwnerId* id)]: the allocator
    after the call and the value left in the caller's [*id]. *)
Definition Free (a : ItemOwnerIdAllocator) (id : Z) : ItemOwnerIdAllocator * Z :=
  if negb (id =? kUnknownItemId) then
    (if Z.of_nat (length (free_ids_ a)) <? kMaxFreeItemOwnersIdListSize then
       {| next_item_owner_id_ := next_item_owner_id_ a;
          has_wrapped_around_ := has_wrapped_around_ a;
          free_ids_ := free_ids_ a ++ [id] |}
     else a,
     kUnknownItemId)
  else (a, id).

(** The part of [Cache] these functions touch. *)
Record Cache := { owner_id_allocator_ : ItemOwnerIdAllocator }.

(** [Cache::GetNextItemOwnerId] *)
Definition GetNextItemOwnerId (c : Cache) : Cache * Z :=
  let '(a, id) := Allocate (owner_id_allocator_ c) in
  ({| owner_id_allocator_ := a |}, id).

(** [Cache::DiscardItemOwnerId(ItemOwnerId* item_owner_id)] *)
Definition DiscardItemOwnerId (c : Cache) (item_owner_id : Z) : Cache * Z :=
  let '(a, id) := Free (owner_id_allocator_ c) item_owner_id in
  ({| owner_id_allocator_ := a |}, id).

(** Modelled from the spec: the member initialisers of the allocator are in
    the absent header; a fresh allocator has an empty free list, a counter
    at [kMinOwnerItemId] and has not wrapped around. *)
Definition fresh : ItemOwnerIdAllocator :=
  {| next_item_owner_id_ := kMinOwnerItemId;
     has_wrapped_around_ := false;
     free_ids_ := [] |}.

(** What one call of [Allocate] hands to its caller.  The return type is
    [ItemOwnerId] alone: there is no status out-parameter and nothing is
    thrown, so no status ever accompanies the id. *)
Record AllocateOutcome := {
  returned_id : Z;
  signalled : option Code
}.

Definition Allocate_outcome (a : ItemOwnerIdAllocator) : AllocateOutcome :=
  {| returned_id := (Allocate a).2; signalled := None |}.

(** ** Call sequences

    A client issues [Allocate] and [Free] calls.  [live] is the set of ids
    it holds: every id a successful [Allocate] returned and that it has not
    passed to [Free] since. *)
Inductive Call := CallAllocate | CallFree (id : Z).

Record World := { alloc : ItemOwnerIdAllocator; live : gset Z }.

Definition do_call (w : World) (c : Call) : World * list Z :=
  match c with
  | CallAllocate =>
      let '(a, r) := Allocate (alloc w) in
      ({| alloc := a;
          live := if r =? kUnknownItemId then live w else {[r]} ∪ live w |},
       [r])
  | CallFree id =>
      ({| alloc := (Free (alloc w) id).1; live := live w ∖ {[id]} |}, [])
  end.

(** The world after a sequence of calls, and the ids the [Allocate] calls
    of the sequence returned, in order. *)
Fixpoint run (cs : list Call) (w : World) : World * list Z :=
  match cs with
  | [] => (w, [])
  | c :: cs' =>
      let '(w1, o1) := do_call w c in
      let '(w2, o2) := run cs' w1 in
      (w2, o1 ++ o2)
  end.

(** The client frees only what it holds (or the sentinel): no double free,
    no free of an id it was never given. *)
Definition permitted (w : World) (c : Call) : Prop :=
  match c with
  | CallAllocate => True
  | CallFree id => id = kUnknownItemId \/ id ∈ live w
  end.

Fixpoint disciplined (cs : list Call) (w : World) : Prop :=
  match cs with
  | [] => True
  | c :: cs' => permitted w c /\ disciplined cs' (do_call w c).1
  end.

Definition fresh_world : World := {| alloc := fresh; live := ∅ |}.

(** The ids still to come from the counter. *)
Definition in_counter_range (a : ItemOwnerIdAllocator) (x : Z) : Prop :=
  has_wrapped_around_ a = false /\ next_item_owner_id_ a <= x <= kMaxOwnerItemId.

(** The invariant of disciplined runs: the free list has no duplicates, and
    live ids, free-list ids and counter ids are pairwise disjoint. *)
Record Inv (w : World) : Prop := {
  inv_nodup : NoDup (free_ids_ (alloc w));
  inv_free_not_live : forall x, x ∈ free_ids_ (alloc w) -> x ∉ live w;
  inv_counter : has_wrapped_around_ (alloc w) = false ->
                0 <= next_item_owner_id_ (alloc w) <= kMaxOwnerItemId;
  inv_range_not_live : forall x, in_counter_range (alloc w) x -> x ∉ live w;
  inv_range_not_free : forall x, in_counter_range (alloc w) x ->
                                  x ∉ free_ids_ (alloc w);
  inv_unknown_not_live : kUnknownItemId ∉ live w
}.

(** An id the allocator can never hand out again. *)
Definition retired (w : World) (x : Z) : Prop :=
  (x ∉ live w) /\ (x ∉ free_ids_ (alloc w)) /\ ~ in_counter_range (alloc w) x.

End Allocator.
End OwnerId.

(** With the tiny constants: ids 1, 2 and 3 have been handed out and
    nothing was freed. *)
Definition exhausted_world : @OwnerId.World :=
  (@OwnerId.run tiny_consts
     [OwnerId.CallAllocate; OwnerId.CallAllocate; OwnerId.CallAllocate]
     (@OwnerId.fresh_world tiny_consts)).1.

(** ** The [std::string] operations the constructors use *)
Module Str.

(** [pat] occurs in [s] at position 0. *)
Fixpoint occurs_at_front (pat s : string) : bool :=
  match pat, s with
  | EmptyString, _ => true
  | String a pat', String b s' => Ascii.eqb a b && occurs_at_front pat' s'
  | String _ _, EmptyString => false
  end.

Fixpoint find_from (pos : nat) (pat s : string) : option nat :=
  if occurs_at_front pat s then Some pos
  else match s with
       | EmptyString => None
       | String _ s' => find_from (S pos) pat s'
       end.

(** [s.find(pat)]: the first position at which [pat] occurs in [s];
    [None] is [std::string::npos]. *)
Definition find (s pat : string) : option nat := find_from 0 pat s.

(** [s.find(c)] for a single character. *)
Definition find_char (s : string) (c : ascii) : option nat :=
  find s (String c EmptyString).

(** [std::strlen] *)
Definition strlen (s : string) : nat := String.length s.

(** [s.erase(0, n)] *)
Fixpoint erase_front (n : nat) (s : string) : string :=
  match n, s with
  | O, _ => s
  | S n', String _ s' => erase_front n' s'
  | S _, EmptyString => EmptyString
  end.

End Str.

(** ** Construction from configuration strings *)
Module Construction.

(** The option-table vocabulary of [rocksdb/utilities/options_type.h] that
    the two tables of cache.cc use. *)
Inductive OptionType :=
  | kSizeT | kInt | kBoolean | kDouble | kCompressionType | kUInt32T.
Inductive OptionVerificationType := kNormal.
Inductive OptionTypeFlags := kMutable.

(** One table entry; [offset_] stands for [offsetof(struct S, field)] and
    names the field. *)
Record OptionTypeInfo (F : Type) := {
  offset_ : F;
  type_ : OptionType;
  verification_ : OptionVerificationType;
  flags_ : OptionTypeFlags
}.
Arguments offset_ {F}.
Arguments type_ {F}.
Arguments verification_ {F}.
Arguments flags_ {F}.

Inductive LRUCacheOptions_field :=
  | lru_capacity | lru_num_shard_bits | lru_strict_capacity_limit
  | lru_high_pri_pool_ratio | lru_low_pri_pool_ratio.

Inductive CompressedSecondaryCacheOptions_field :=
  | sec_capacity | sec_num_shard_bits | sec_compression_type
  | sec_compress_format_version | sec_enable_custom_split_merge.

Definition entry {F} (f : F) (t : OptionType) : OptionTypeInfo F :=
  {| offset_ := f; type_ := t; verification_ := kNormal; flags_ := kMutable |}.

(** [lru_cache_options_type_info] *)
Definition lru_cache_options_type_info
  : gmap string (OptionTypeInfo LRUCacheOptions_field) :=
  list_to_map [
    ("capacity"%string, entry lru_capacity kSizeT);
    ("num_shard_bits"%string, entry lru_num_shard_bits kInt);
    ("strict_capacity_limit"%string, entry lru_strict_capacity_limit kBoolean);
    ("high_pri_pool_ratio"%string, entry lru_high_pri_pool_ratio kDouble);
    ("low_pri_pool_ratio"%string, entry lru_low_pri_pool_ratio kDouble) ].

(** [comp_sec_cache_options_type_info] *)
Definition comp_sec_cache_options_type_info
  : gmap string (OptionTypeInfo CompressedSecondaryCacheOptions_field) :=
  list_to_map [
    ("capacity"%string, entry sec_capacity kSizeT);
    ("num_shard_bits"%string, entry sec_num_shard_bits kInt);
    ("compression_type"%string, entry sec_compression_type kCompressionType);
    ("compress_format_version"%string,
       entry sec_compress_format_version kUInt32T);
    ("enable_custom_split_merge"%string,
       entry sec_enable_custom_split_merge kBoolean) ].

(** The types cache.cc only passes around. *)
Class ExternalTypes := {
  ConfigOptions : Type;
  CacheObject : Type;
  SecondaryCacheObject : Type;
  SharedFactoryFunc : Type;
  CompressionType : Type;
  double : Type
}.

Section Options.
Context `{T : ExternalTypes}.

(** The fields of [LRUCacheOptions] that [lru_cache_options_type_info]
    names. *)
Record LRUCacheOptions := {
  capacity : Z;
  num_shard_bits : Z;
  strict_capacity_limit : bool;
  high_pri_pool_ratio : double;
  low_pri_pool_ratio : double
}.

(** The fields of [CompressedSecondaryCacheOptions] that
    [comp_sec_cache_options_type_info] names. *)
Record CompressedSecondaryCacheOptions := {
  sec_capacity_ : Z;
  sec_num_shard_bits_ : Z;
  compression_type : CompressionType;
  compress_format_version : Z;
  enable_custom_split_merge : bool
}.

Definition with_capacity (c : Z) (o : LRUCacheOptions) : LRUCacheOptions :=
  {| capacity := c;
     num_shard_bits := num_shard_bits o;
     strict_capacity_limit := strict_capacity_limit o;
     high_pri_pool_ratio := high_pri_pool_ratio o;
     low_pri_pool_ratio := low_pri_pool_ratio o |}.

End Options.

(** The functions cache.cc calls and that are defined elsewhere.  A
    [std::shared_ptr] is an [option]: [None] is the null pointer. *)
Class Collaborators `{T : ExternalTypes} := {
  (** [ParseSizeT] of util/string_util.h *)
  ParseSizeT : string -> Z;
  (** the default-constructed [LRUCacheOptions] and
      [CompressedSecondaryCacheOptions] *)
  LRUCacheOptions_default : LRUCacheOptions;
  CompressedSecondaryCacheOptions_default : CompressedSecondaryCacheOptions;
  (** [NewLRUCache(const LRUCacheOptions&)] *)
  NewLRUCache : LRUCacheOptions -> option CacheObject;
  (** [NewCompressedSecondaryCache(const CompressedSecondaryCacheOptions&)] *)
  NewCompressedSecondaryCache :
    CompressedSecondaryCacheOptions -> option SecondaryCacheObject;
  (** [OptionTypeInfo::ParseStruct(config_options, struct_name, type_map,
      opt_name, opt_value, opt_addr)]: the status and the struct behind
      [opt_addr] after the call *)
  ParseStruct : forall (F O : Type),
    ConfigOptions -> string -> gmap string (OptionTypeInfo F) ->
    string -> string -> O -> Status * O;
  (** [LoadSharedObject<SecondaryCache>(config_options, value, func,
      result)]: the status and [*result] after the call *)
  LoadSharedObject :
    ConfigOptions -> string -> option SharedFactoryFunc ->
    option SecondaryCacheObject -> Status * option SecondaryCacheObject
}.

Section Builders.
Context `{C : Collaborators}.

(** Modelled from the spec: [NewLRUCache(size_t capacity)] takes its other
    arguments from defaults declared in the absent lru_cache.h; the spec has
    it build the default-shaped cache (default shard-bit count, default pool
    ratios, strict limit default) with the given capacity. *)
Definition NewLRUCache_capacity (c : Z) : option CacheObject :=
  NewLRUCache (with_capacity c LRUCacheOptions_default).

Definition scheme : string := "compressed_secondary_cache://".

(** The body of the [if] of [SecondaryCache::CreateFromString], entered
    with [args] the string behind the scheme token. *)
Definition CompressedSecondaryCache_path (ROCKSDB_LITE : bool)
    (config_options : ConfigOptions) (args : string)
    (result : option SecondaryCacheObject)
  : Status * option SecondaryCacheObject :=
  let '(status, sec_cache) :=
    if ROCKSDB_LITE then
      (Status_NotSupported
         "Cannot load compressed secondary cache in LITE mode " args, None)
    else
      let '(status, sec_cache_opts) :=
        ParseStruct _ _ config_options EmptyString
          comp_sec_cache_options_type_info EmptyString args
          CompressedSecondaryCacheOptions_default in
      if ok status then (status, NewCompressedSecondaryCache sec_cache_opts)
      else (status, None) in
  if ok status then (status, sec_cache) else (status, result).

(** [SecondaryCache::CreateFromString]: the status returned and [*result]
    after the call. *)
Definition SecondaryCache_CreateFromString (ROCKSDB_LITE : bool)
    (config_options : ConfigOptions) (value : string)
    (result : option SecondaryCacheObject)
  : Status * option SecondaryCacheObject :=
  match Str.find value scheme with
  | Some O =>
      let args := Str.erase_front (Str.strlen scheme) value in
      CompressedSecondaryCache_path ROCKSDB_LITE config_options args result
  | _ => LoadSharedObject config_options value None result
  end.

(** [Cache::CreateFromString]: the status returned and [*result] after the
    call. *)
Definition Cache_CreateFromString (ROCKSDB_LITE : bool)
    (config_options : ConfigOptions) (value : string)
    (result : option CacheObject)
  : Status * option CacheObject :=
  let '(status, cache) :=
    match Str.find_char value "="%char with
    | None => (Status_OK, NewLRUCache_capacity (ParseSizeT value))
    | Some _ =>
        if ROCKSDB_LITE then
          (Status_NotSupported "Cannot load cache in LITE mode " value, None)
        else
          let '(status, cache_opts) :=
            ParseStruct _ _ config_options EmptyString
              lru_cache_options_type_info EmptyString value
              LRUCacheOptions_default in
          if ok status then (status, NewLRUCache cache_opts)
          else (status, None)
    end in
  if ok status then (status, cache) else (status, result).

End Builders.
End Construction.

(** ** Concrete inputs

    Stand-ins for the collaborators, on which the constructors can be run
    on concrete strings. *)
Module Sample.
Import Construction.

Definition types : ExternalTypes := {|
  ConfigOptions := unit;
  CacheObject := Z * Z * bool;
  SecondaryCacheObject := Z * Z;
  SharedFactoryFunc := unit;
  CompressionType := nat;
  double := string
|}.

(** Modelled from the spec: [ParseSizeT] is defined in the absent
    util/string_util.cc; a plain byte size is read as a decimal number. *)
Fixpoint parse_decimal (acc : Z) (s : string) : Z :=
  match s with
  | EmptyString => acc
  | String c s' => parse_decimal (10 * acc + (Z.of_nat (nat_of_ascii c) - 48)) s'
  end.

(** Modelled from the spec: the remaining collaborators are defined outside
    cache.cc.  The cache built from options records capacity, shard bits
    and the strict flag; the struct parser accepts only the empty string
    and otherwise fails with InvalidArgument; the registry knows no name,
    fails with NotSupported and leaves [*result] alone. *)
Definition lru_defaults : @LRUCacheOptions types :=
  @Build_LRUCacheOptions types 0 (-1) false "0.5"%string "0.0"%string.

Definition sec_defaults : @CompressedSecondaryCacheOptions types :=
  @Build_CompressedSecondaryCacheOptions types 0 (-1) 0%nat 2 false.

Definition collaborators : @Collaborators types := {|
  ParseSizeT := parse_decimal 0;
  LRUCacheOptions_default := lru_defaults;
  CompressedSecondaryCacheOptions_default := sec_defaults;
  NewLRUCache := fun o =>
    Some (capacity o, num_shard_bits o, strict_capacity_limit o);
  NewCompressedSecondaryCache := fun o =>
    Some (sec_capacity_ o, sec_num_shard_bits_ o);
  ParseStruct := fun F O _ _ _ _ opt_value o =>
    match opt_value with
    | EmptyString => (Status_OK, o)
    | _ => (Status_InvalidArgument "Unable to parse the specified options"
              opt_value, o)
    end;
  LoadSharedObject := fun _ value _ result =>
    (Status_NotSupported "Could not load" value, result)
|}.

(** The text before the first [c] of [s] and the text behind it. *)
Fixpoint split_at (c : ascii) (s : string) : option (string * string) :=
  match s with
  | EmptyString => None
  | String a s' =>
      if Ascii.eqb a c then Some (EmptyString, s')
      else match split_at c s' with
           | Some (k, v) => Some (String a k, v)
           | None => None
           end
  end.

(** The pieces of [s] between occurrences of [c]. *)
Fixpoint split_on (c : ascii) (s : string) : list string :=
  match s with
  | EmptyString => [EmptyString]
  | String a s' =>
      if Ascii.eqb a c then EmptyString :: split_on c s'
      else match split_on c s' with
           | p :: ps => String a p :: ps
           | [] => [String a EmptyString]
           end
  end.

(** Every non-empty piece of a [;]-separated list is [key=value] with
    [key] a key of the table. *)
Definition keys_known {F} (type_map : gmap string (OptionTypeInfo F))
    (opt_value : string) : bool :=
  forallb
    (fun piece =>
       match piece with
       | EmptyString => true
       | _ => match split_at "=" piece with
              | Some (k, _) =>
                  match type_map !! k with Some _ => true | None => false end
              | None => false
              end
       end)
    (split_on ";" opt_value).

(** Modelled from the spec: a struct parser that accepts a
    [key=value;key=value...] list whose keys all belong to the table and
    fails with InvalidArgument on an unknown key or a piece without [=].
    It knows nothing of the struct behind [opt_addr] and leaves it as it
    is. *)
Definition keyed_collaborators : @Collaborators types := {|
  ParseSizeT := parse_decimal 0;
  LRUCacheOptions_default := lru_defaults;
  CompressedSecondaryCacheOptions_default := sec_defaults;
  NewLRUCache := fun o =>
    Some (capacity o, num_shard_bits o, strict_capacity_limit o);
  NewCompressedSecondaryCache := fun o =>
    Some (sec_capacity_ o, sec_num_shard_bits_ o);
  ParseStruct := fun F O _ _ type_map _ opt_value o =>
    if keys_known type_map opt_value then (Status_OK, o)
    else (Status_InvalidArgument "Unrecognized option" opt_value, o);
  LoadSharedObject := fun _ value _ result =>
    (Status_NotSupported "Could not load" value, result)
|}.

(** Modelled from the spec: the same collaborators with a cache factory
    that builds nothing and returns the null pointer, which its
    [std::shared_ptr] return type admits. *)
Definition null_factory_collaborators : @Collaborators types := {|
  ParseSizeT := parse_decimal 0;
  LRUCacheOptions_default := lru_defaults;
  CompressedSecondaryCacheOptions_default := sec_defaults;
  NewLRUCache := fun _ => None;
  NewCompressedSecondaryCache := fun o =>
    Some (sec_capacity_ o, sec_num_shard_bits_ o);
  ParseStruct := fun F O _ _ type_map _ opt_value o =>
    if keys_known type_map opt_value then (Status_OK, o)
    else (Status_InvalidArgument "Unrecognized option" opt_value, o);
  LoadSharedObject := fun _ value _ result =>
    (Status_NotSupported "Could not load" value, result)
|}.

Definition cfg : @ConfigOptions types := tt.
Definition old_cache : option (@CacheObject types) := Some (7, 0, false).
Definition old_secondary : option (@SecondaryCacheObject types) := Some (7, 0).

End Sample.

(** ** Further invariants of call sequences *)
Section RangeInvariants.
Context `{K : OwnerIdConsts}.

(** Held ids, free-list ids and an unwrapped counter all lie between
    [kMinOwnerItemId] and [kMaxOwnerItemId]. *)
Definition ids_in_range (w : OwnerId.World) : Prop :=
  (forall x, x ∈ OwnerId.live w -> kMinOwnerItemId <= x <= kMaxOwnerItemId) /\
  (forall x, x ∈ OwnerId.free_ids_ (OwnerId.alloc w) ->
             kMinOwnerItemId <= x <= kMaxOwnerItemId) /\
  (OwnerId.has_wrapped_around_ (OwnerId.alloc w) = false ->
   kMinOwnerItemId <= OwnerId.next_item_owner_id_ (OwnerId.alloc w)
   <= kMaxOwnerItemId).

(** Every id of the range is held, on the free list, or still to come from
    the counter. *)
Definition all_ids_accounted (w : OwnerId.World) : Prop :=
  forall x, kMinOwnerItemId <= x <= kMaxOwnerItemId ->
    x ∈ OwnerId.live w \/ x ∈ OwnerId.free_ids_ (OwnerId.alloc w) \/
    OwnerId.in_counter_range (OwnerId.alloc w) x.

End RangeInvariants.

(** ** The premise without the holding requirement *)
Section DoubleFree.
Context `{K : OwnerIdConsts}.


End DoubleFree.

(** Ids 1..3 with a free list that has room for all of them. *)
Definition roomy_consts : OwnerIdConsts := {|
  ItemOwnerId_modulus := 4;
  kUnknownItemId := 0;
  kMinOwnerItemId := 1;
  kMaxOwnerItemId := 3;
  kMaxFreeItemOwnersIdListSize := 3
|}.

(** * Properties of the owner-id allocator *)
Import OwnerId.

Section AllocatorFacts.
Context `{K : OwnerIdConsts}.

Lemma Allocate_nonempty a x rest :
  free_ids_ a = x :: rest ->
  Allocate a =
    ({| next_item_owner_id_ := next_item_owner_id_ a;
        has_wrapped_around_ := has_wrapped_around_ a;
        free_ids_ := rest |}, x).
Proof. intros E. unfold Allocate. now rewrite E. Qed.

Lemma Allocate_exhausted a :
  free_ids_ a = [] -> has_wrapped_around_ a = true ->
  Allocate a = (a, kUnknownItemId).
Proof. intros E W. unfold Allocate. now rewrite E, W. Qed.

Lemma Allocate_counter a :
  free_ids_ a = [] -> has_wrapped_around_ a = false ->
  Allocate a =
    ({| next_item_owner_id_ := incr_id (next_item_owner_id_ a);
        has_wrapped_around_ :=
          if next_item_owner_id_ a =? kMaxOwnerItemId then true else false;
        free_ids_ := [] |}, next_item_owner_id_ a).
Proof. intros E W. unfold Allocate. now rewrite E, W. Qed.

Lemma Free_unknown a : Free a kUnknownItemId = (a, kUnknownItemId).
Proof. unfold Free. now rewrite Z.eqb_refl. Qed.

Lemma Free_push a id :
  id <> kUnknownItemId ->
  Z.of_nat (length (free_ids_ a)) < kMaxFreeItemOwnersIdListSize ->
  Free a id =
    ({| next_item_owner_id_ := next_item_owner_id_ a;
        has_wrapped_around_ := has_wrapped_around_ a;
        free_ids_ := free_ids_ a ++ [id] |}, kUnknownItemId).
Proof.
  intros Hid Hlen. unfold Free.
  apply Z.eqb_neq in Hid. apply Z.ltb_lt in Hlen. now rewrite Hid, Hlen.
Qed.

Lemma Free_discard a id :
  id <> kUnknownItemId ->
  ~ Z.of_nat (length (free_ids_ a)) < kMaxFreeItemOwnersIdListSize ->
  Free a id = (a, kUnknownItemId).
Proof.
  intros Hid Hlen. unfold Free.
  apply Z.eqb_neq in Hid. apply Z.ltb_nlt in Hlen. now rewrite Hid, Hlen.
Qed.

(** [Free] either leaves the free list alone or appends to its back. *)
Lemma Free_free_ids a id :
  free_ids_ (Free a id).1 = free_ids_ a \/
  (id <> kUnknownItemId /\ free_ids_ (Free a id).1 = free_ids_ a ++ [id]).
Proof.
  unfold Free. destruct (Z.eqb_spec id kUnknownItemId) as [->|Hne]; simpl.
  - now left.
  - destruct (_ <? _); simpl; [right | left]; auto.
Qed.

Lemma Free_counter a id :
  next_item_owner_id_ (Free a id).1 = next_item_owner_id_ a /\
  has_wrapped_around_ (Free a id).1 = has_wrapped_around_ a.
Proof.
  unfold Free. destruct (negb _); simpl; [destruct (_ <? _)|]; auto.
Qed.

Lemma incr_id_in_range z :
  kMaxOwnerItemId < ItemOwnerId_modulus -> 0 <= z < kMaxOwnerItemId ->
  incr_id z = z + 1.
Proof. intros HM Hz. unfold incr_id. apply Z.mod_small. lia. Qed.

Lemma Allocate_below_max a :
  free_ids_ a = [] -> has_wrapped_around_ a = false ->
  kMaxOwnerItemId < ItemOwnerId_modulus ->
  0 <= next_item_owner_id_ a < kMaxOwnerItemId ->
  Allocate a =
    ({| next_item_owner_id_ := next_item_owner_id_ a + 1;
        has_wrapped_around_ := false;
        free_ids_ := [] |}, next_item_owner_id_ a).
Proof.
  intros E W HM Hn. rewrite (Allocate_counter a E W).
  rewrite incr_id_in_range by done.
  destruct (Z.eqb_spec (next_item_owner_id_ a) kMaxOwnerItemId); [lia | done].
Qed.

Lemma Inv_fresh : consts_in_range -> Inv fresh_world.
Proof.
  intros (H0 & Hle & HM).
  split; simpl; try set_solver. constructor.
Qed.

Lemma Inv_Allocate w :
  consts_in_range -> Inv w -> Inv (do_call w CallAllocate).1.
Proof.
  intros (H0 & Hle & HM) [Hnd Hfl Hc Hrl Hrf Hu].
  unfold do_call. destruct w as [a lv]; simpl in *.
  destruct (free_ids_ a) as [|x rest] eqn:E.
  - destruct (has_wrapped_around_ a) eqn:W.
    + rewrite (Allocate_exhausted a E W); simpl. rewrite Z.eqb_refl.
      split; simpl; rewrite ?E; auto. congruence.
    + rewrite (Allocate_counter a E W); simpl.
      specialize (Hc eq_refl).
      assert (Hfresh : next_item_owner_id_ a ∉ lv).
      { apply Hrl. split; [done | lia]. }
      assert (Hlive : forall x : Z,
                 x ∈ (if next_item_owner_id_ a =? kUnknownItemId then lv
                      else {[next_item_owner_id_ a]} ∪ lv) ->
                 x = next_item_owner_id_ a \/ x ∈ lv).
      { intros x. destruct (_ =? _); set_solver. }
      split; simpl.
      * constructor.
      * set_solver.
      * destruct (Z.eqb_spec (next_item_owner_id_ a) kMaxOwnerItemId);
          [discriminate|]. intros _.
        rewrite incr_id_in_range by lia. lia.
      * intros x [Hw Hx]; simpl in *.
        destruct (Z.eqb_spec (next_item_owner_id_ a) kMaxOwnerItemId);
          [discriminate|].
        rewrite incr_id_in_range in Hx by lia.
        intros Hin. apply Hlive in Hin as [->|Hin]; [lia|].
        revert Hin. apply Hrl. split; [done | lia].
      * set_solver.
      * clear Hlive.
        destruct (Z.eqb_spec (next_item_owner_id_ a) kUnknownItemId);
          set_solver.
  - rewrite (Allocate_nonempty a x rest E); simpl.
    apply NoDup_cons in Hnd as [Hx Hnd].
    assert (Hlive : forall y : Z,
               y ∈ (if x =? kUnknownItemId then lv else {[x]} ∪ lv) ->
               y = x \/ y ∈ lv).
    { intros y. destruct (_ =? _); set_solver. }
    split; simpl; auto.
    + intros y Hy Hin. apply Hlive in Hin as [->|Hin]; [done|].
      revert Hin. apply Hfl. set_solver.
    + intros y Hr Hin. apply Hlive in Hin as [->|Hin].
      * apply (Hrf x Hr). set_solver.
      * revert Hin. now apply Hrl.
    + intros y Hr Hin. apply (Hrf y Hr). set_solver.
    + clear Hlive. destruct (Z.eqb_spec x kUnknownItemId); set_solver.
Qed.

Lemma Inv_Free w id :
  Inv w -> permitted w (CallFree id) -> Inv (do_call w (CallFree id)).1.
Proof.
  intros [Hnd Hfl Hc Hrl Hrf Hu] Hp. destruct w as [a lv]; simpl in *.
  destruct (Free_counter a id) as [En Ew].
  assert (Hrange : forall x, in_counter_range (Free a id).1 x ->
                             in_counter_range a x).
  { intros x [Hw Hx]. split; congruence. }
  destruct (Free_free_ids a id) as [E | [Hne E]].
  - split; simpl; rewrite ?E, ?En, ?Ew; auto; set_solver.
  - destruct Hp as [->|Hlive]; [done|].
    split; simpl; rewrite ?E, ?En, ?Ew; auto.
    + apply NoDup_app. split_and!; [done | | apply NoDup_singleton].
      intros x Hx. set_solver.
    + set_solver.
    + set_solver.
    + intros x Hr. apply Hrange in Hr.
      rewrite elem_of_app, list_elem_of_singleton.
      intros [Hin | ->]; [by apply (Hrf x) | by apply (Hrl id)].
    + set_solver.
Qed.

Lemma Inv_step w c :
  consts_in_range -> Inv w -> permitted w c -> Inv (do_call w c).1.
Proof.
  intros HK HI Hp. destruct c as [|id].
  - by apply Inv_Allocate.
  - by apply Inv_Free.
Qed.

Lemma run_cons c cs w :
  run (c :: cs) w =
    ((run cs (do_call w c).1).1, (do_call w c).2 ++ (run cs (do_call w c).1).2).
Proof.
  simpl. destruct (do_call w c) as [w1 o1]. simpl.
  by destruct (run cs w1) as [w2 o2].
Qed.

(** The invariant holds along every disciplined sequence of calls. *)
Lemma Inv_run cs : forall w,
  consts_in_range -> Inv w -> disciplined cs w -> Inv (run cs w).1.
Proof.
  induction cs as [|c cs IH]; intros w HK HI Hd.
  - done.
  - destruct Hd as [Hp Hd]. rewrite run_cons. simpl.
    apply IH; [done | by apply Inv_step | done].
Qed.



(** A retired id stays retired, and no call returns it. *)
Lemma retired_step w c x :
  consts_in_range -> Inv w -> permitted w c -> x <> kUnknownItemId ->
  retired w x ->
  retired (do_call w c).1 x /\ x ∉ (do_call w c).2.
Proof.
  intros (H0 & Hle & HM) [Hnd Hfl Hc Hrl Hrf Hu] Hp Hx (Hl & Hf & Hr).
  destruct w as [a lv]. destruct c as [|id]; simpl in *.
  - destruct (free_ids_ a) as [|y rest] eqn:E.
    + destruct (has_wrapped_around_ a) eqn:W.
      * rewrite (Allocate_exhausted a E W). simpl. rewrite Z.eqb_refl.
        split; [|set_solver]. unfold retired; simpl. by rewrite E.
      * rewrite (Allocate_counter a E W). simpl.
        specialize (Hc eq_refl).
        assert (Hne : x <> next_item_owner_id_ a).
        { intros ->. apply Hr. split; [done | lia]. }
        split; [|set_solver]. unfold retired; simpl. split_and!.
        -- destruct (_ =? kUnknownItemId); set_solver.
        -- set_solver.
        -- intros [Hw Hin]; simpl in *.
           destruct (Z.eqb_spec (next_item_owner_id_ a) kMaxOwnerItemId);
             [discriminate|].
           rewrite incr_id_in_range in Hin by lia.
           apply Hr. split; [done | lia].
    + rewrite (Allocate_nonempty a y rest E). simpl.
      assert (Hne : x <> y) by set_solver.
      split; [|set_solver]. unfold retired; simpl. split_and!.
      * destruct (_ =? kUnknownItemId); set_solver.
      * set_solver.
      * done.
  - split; [|set_solver]. unfold retired; simpl.
    destruct (Free_counter a id) as [En Ew].
    split_and!.
    + set_solver.
    + destruct (Free_free_ids a id) as [E | [_ E]]; rewrite E; [done|].
      destruct Hp as [->|Hin]; set_solver.
    + intros [Hw Hin]. apply Hr. split; congruence.
Qed.

Lemma retired_run cs : forall w x,
  consts_in_range -> Inv w -> disciplined cs w -> x <> kUnknownItemId ->
  retired w x -> x ∉ (run cs w).2.
Proof.
  induction cs as [|c cs IH]; intros w x HK HI Hd Hx Hr.
  - simpl. set_solver.
  - destruct Hd as [Hp Hd]. rewrite run_cons. simpl.
    destruct (retired_step w c x HK HI Hp Hx Hr) as [Hr' Hout].
    rewrite elem_of_app. intros [Hin|Hin]; [done|].
    revert Hin. apply IH; auto using Inv_step.
Qed.

Lemma disciplined_app cs1 : forall cs2 w,
  disciplined (cs1 ++ cs2) w ->
  disciplined cs1 w /\ disciplined cs2 (run cs1 w).1.
Proof.
  induction cs1 as [|c cs1 IH]; intros cs2 w Hd.
  - done.
  - destruct Hd as [Hp Hd]. apply IH in Hd as [Hd1 Hd2].
    rewrite run_cons. simpl. auto.
Qed.


(** C2. On a fresh allocator three [Allocate] calls return three strictly
    increasing ids; [Free] of the middle one followed by a fourth [Allocate]
    returns that id and leaves the counter where it was.  The header
    constants must leave room for three ids, keep the sentinel away from the
    middle id and give the free list room for one entry. *)
Theorem fresh_three_then_middle_reused :
  0 <= kMinOwnerItemId -> kMinOwnerItemId + 2 <= kMaxOwnerItemId ->
  kMaxOwnerItemId < ItemOwnerId_modulus ->
  kMinOwnerItemId + 1 <> kUnknownItemId ->
  0 < kMaxFreeItemOwnersIdListSize ->
  let '(a1, id1) := Allocate fresh in
  let '(a2, id2) := Allocate a1 in
  let '(a3, id3) := Allocate a2 in
  let '(a4, _) := Free a3 id2 in
  let '(a5, id4) := Allocate a4 in
  id1 < id2 < id3 /\ id4 = id2 /\
  next_item_owner_id_ a5 = next_item_owner_id_ a3 /\
  has_wrapped_around_ a5 = has_wrapped_around_ a3.
Proof.
  intros H0 Hroom HM Hmid Hcap.
  rewrite (Allocate_below_max fresh) by (simpl; done || lia).
  cbv beta iota.
  rewrite Allocate_below_max by (simpl; done || lia).
  cbv beta iota.
  rewrite Allocate_counter by done.
  cbv beta iota.
  rewrite Free_push by (simpl; lia).
  cbv beta iota.
  erewrite Allocate_nonempty by reflexivity.
  simpl. split_and!; (done || lia).
Qed.

(** C3. With a non-empty free list [Allocate] returns the front entry, pops
    it and leaves the counter and the wrap flag alone; whenever a call moves
    the counter, the free list was empty. *)
Theorem Allocate_reuses_before_counter a :
  (free_ids_ a <> [] ->
   head (free_ids_ a) = Some (Allocate a).2 /\
   free_ids_ (Allocate a).1 = tail (free_ids_ a) /\
   next_item_owner_id_ (Allocate a).1 = next_item_owner_id_ a /\
   has_wrapped_around_ (Allocate a).1 = has_wrapped_around_ a) /\
  (next_item_owner_id_ (Allocate a).1 <> next_item_owner_id_ a ->
   free_ids_ a = []).
Proof.
  destruct (free_ids_ a) as [|x rest] eqn:E.
  - split; [done | auto].
  - rewrite (Allocate_nonempty a x rest E). simpl. split; [auto | done].
Qed.

(** C4, as the code has it. Once the counter is exhausted
    ([has_wrapped_around_] is set: [kMaxOwnerItemId] has been handed out)
    and the free list is empty, [Allocate] returns the sentinel, changes
    nothing and signals no status; so does every further [Allocate] as long
    as no [Free] comes in between. *)
Theorem Allocate_exhausted_returns_unknown w :
  has_wrapped_around_ (alloc w) = true -> free_ids_ (alloc w) = [] ->
  Allocate (alloc w) = (alloc w, kUnknownItemId) /\
  signalled (Allocate_outcome (alloc w)) = None /\
  forall n, run (replicate n CallAllocate) w = (w, replicate n kUnknownItemId).
Proof.
  intros W E. split; [by apply Allocate_exhausted|]. split; [done|].
  induction n as [|n IH]; [done|].
  change (replicate (S n) CallAllocate)
    with (CallAllocate :: replicate n CallAllocate).
  rewrite run_cons. simpl. rewrite (Allocate_exhausted _ E W). simpl.
  rewrite Z.eqb_refl. destruct w as [a lv]; simpl in *. by rewrite IH.
Qed.

(** C5. [Free] of the sentinel changes nothing; [Free] of any other id
    appends it to the back of the free list when the list is below
    [kMaxFreeItemOwnersIdListSize] and otherwise leaves the allocator as it
    was; an id dropped that way is returned by no later [Allocate] of a
    disciplined client. *)
Theorem Free_enqueues_or_drops :
  (forall a, Free a kUnknownItemId = (a, kUnknownItemId)) /\
  (forall a id, id <> kUnknownItemId ->
     Z.of_nat (length (free_ids_ a)) < kMaxFreeItemOwnersIdListSize ->
     (Free a id).1 =
       {| next_item_owner_id_ := next_item_owner_id_ a;
          has_wrapped_around_ := has_wrapped_around_ a;
          free_ids_ := free_ids_ a ++ [id] |}) /\
  (forall a id, id <> kUnknownItemId ->
     ~ Z.of_nat (length (free_ids_ a)) < kMaxFreeItemOwnersIdListSize ->
     (Free a id).1 = a) /\
  (consts_in_range ->
   forall cs1 id cs2,
     let w := (run cs1 fresh_world).1 in
     disciplined (cs1 ++ CallFree id :: cs2) fresh_world ->
     id <> kUnknownItemId ->
     ~ Z.of_nat (length (free_ids_ (alloc w))) < kMaxFreeItemOwnersIdListSize ->
     id ∉ (run (CallFree id :: cs2) w).2).
Proof.
  split_and!.
  - apply Free_unknown.
  - intros a id Hid Hlen. by rewrite Free_push.
  - intros a id Hid Hlen. by rewrite Free_discard.
  - intros HK cs1 id cs2 w Hd Hid Hfull.
    apply disciplined_app in Hd as [Hd1 [Hp Hd2]]. fold w in Hp, Hd2.
    assert (HI : Inv w) by (apply Inv_run; auto using Inv_fresh).
    destruct Hp as [?|Hlive]; [done|].
    rewrite run_cons. simpl.
    apply retired_run; auto.
    + apply (Inv_step w (CallFree id)); [done | done | by right].
    + unfold retired. simpl. rewrite Free_discard by done. split_and!.
      * set_solver.
      * intros Hin. by apply (inv_free_not_live w HI id).
      * intros Hr. by apply (inv_range_not_live w HI id).
Qed.

(** C6. After [Free(&id)] with [id] not the sentinel the caller's variable
    holds the sentinel, also when the free list is full and the id is
    dropped; with [id] the sentinel, variable and allocator are unchanged.
    [Cache::DiscardItemOwnerId] behaves the same on the cache's allocator. *)
Theorem Free_overwrites_caller_id a id :
  (id <> kUnknownItemId -> (Free a id).2 = kUnknownItemId) /\
  (id <> kUnknownItemId ->
   ~ Z.of_nat (length (free_ids_ a)) < kMaxFreeItemOwnersIdListSize ->
   Free a id = (a, kUnknownItemId)) /\
  (id = kUnknownItemId -> Free a id = (a, id)) /\
  DiscardItemOwnerId {| owner_id_allocator_ := a |} id =
    ({| owner_id_allocator_ := (Free a id).1 |}, (Free a id).2).
Proof.
  split_and!.
  - intros Hid. unfold Free. apply Z.eqb_neq in Hid. by rewrite Hid.
  - apply Free_discard.
  - intros ->. apply Free_unknown.
  - unfold DiscardItemOwnerId. simpl. by destruct (Free a id).
Qed.

End AllocatorFacts.

Section AllocatorRuns.
#[local] Existing Instance uint16_consts.


(** The 16-bit constants: the calls return 1, 2, 3 and then 2 again. *)
Lemma fresh_three_then_middle_reused_witness :
  let '(a1, id1) := Allocate fresh in
  let '(a2, id2) := Allocate a1 in
  let '(a3, id3) := Allocate a2 in
  let '(a4, _) := Free a3 id2 in
  let '(a5, id4) := Allocate a4 in
  id1 < id2 < id3 /\ id4 = id2 /\
  next_item_owner_id_ a5 = next_item_owner_id_ a3 /\
  has_wrapped_around_ a5 = has_wrapped_around_ a3.
Proof.
  apply (@fresh_three_then_middle_reused uint16_consts); simpl; lia.
Defined.

Example three_ids_then_middle_again :
  (run [CallAllocate; CallAllocate; CallAllocate; CallFree 2; CallAllocate]
       fresh_world).2 = [1; 2; 3; 2].
Proof. reflexivity. Qed.

(** A free list [2; 1] with the counter at 4: [Allocate] returns 2 and
    leaves [1]; on the fresh allocator the counter moves and the list is
    empty. *)
Lemma Allocate_reuses_before_counter_witness :
  let a := {| next_item_owner_id_ := 4; has_wrapped_around_ := false;
              free_ids_ := [2; 1] |} in
  (head (free_ids_ a) = Some (Allocate a).2 /\
   free_ids_ (Allocate a).1 = tail (free_ids_ a) /\
   next_item_owner_id_ (Allocate a).1 = next_item_owner_id_ a /\
   has_wrapped_around_ (Allocate a).1 = has_wrapped_around_ a) /\
  free_ids_ fresh = [].
Proof.
  intros a. split.
  - apply (Allocate_reuses_before_counter a). discriminate.
  - apply (Allocate_reuses_before_counter fresh). discriminate.
Defined.


End AllocatorRuns.

Section TinyAllocatorRuns.
#[local] Existing Instance tiny_consts.

Example exhausted_world_ids :
  (run [CallAllocate; CallAllocate; CallAllocate] fresh_world).2 = [1; 2; 3].
Proof. reflexivity. Qed.

(** The counter standing at [kMaxOwnerItemId] is not yet exhausted: that id
    is still handed out, and the call sets the wrap flag. *)
Example Allocate_at_max_succeeds :
  Allocate {| next_item_owner_id_ := 3; has_wrapped_around_ := false;
              free_ids_ := [] |}
  = ({| next_item_owner_id_ := 0; has_wrapped_around_ := true;
        free_ids_ := [] |}, 3).
Proof. reflexivity. Qed.

(** C4 as stated fails: with ids 1..3 all handed out and nothing freed, the
    counter is exhausted and the free list empty, and the call yields the
    sentinel with no ResourceExhausted status beside it. *)
Lemma Allocate_exhausted_signals_no_status :
  has_wrapped_around_ (alloc exhausted_world) = true /\
  free_ids_ (alloc exhausted_world) = [] /\
  ~ (signalled (Allocate_outcome (alloc exhausted_world))
       = Some kResourceExhausted /\
     returned_id (Allocate_outcome (alloc exhausted_world)) = kUnknownItemId).
Proof.
  split; [reflexivity|]. split; [reflexivity|].
  intros [Hs _]. discriminate Hs.
Qed.

Lemma Allocate_exhausted_returns_unknown_witness :
  Allocate (alloc exhausted_world) = (alloc exhausted_world, 0) /\
  run [CallAllocate; CallAllocate] exhausted_world = (exhausted_world, [0; 0]).
Proof.
  destruct (Allocate_exhausted_returns_unknown exhausted_world)
    as (H1 & _ & H3); [reflexivity | reflexivity |].
  split; [exact H1 | exact (H3 2%nat)].
Defined.

(** Ids 1, 2, 3 are handed out and 1 is freed, which fills the one-entry
    free list.  Freeing 2 drops it: the later calls return 1 and then fail,
    and never return 2. *)
Lemma Free_enqueues_or_drops_witness :
  let cs1 := [CallAllocate; CallAllocate; CallAllocate; CallFree 1] in
  let cs2 := [CallAllocate; CallAllocate; CallAllocate] in
  let w := (run cs1 fresh_world).1 in
  free_ids_ (Free fresh 1).1 = [1] /\
  (Free (alloc w) 2).1 = alloc w /\
  (2 ∉ (run (CallFree 2 :: cs2) w).2).
Proof.
  intros cs1 cs2 w.
  destruct (@Free_enqueues_or_drops tiny_consts) as (_ & H2 & H3 & H4).
  split_and!.
  - rewrite (H2 fresh 1); [reflexivity | discriminate | reflexivity].
  - apply H3; [discriminate | vm_compute; discriminate].
  - apply (H4 ltac:(unfold consts_in_range; simpl; lia) cs1 2 cs2).
    + vm_compute. tauto.
    + discriminate.
    + vm_compute. discriminate.
Defined.

Example Free_drop_outputs :
  (run [CallAllocate; CallAllocate; CallAllocate; CallFree 1; CallFree 2;
        CallAllocate; CallAllocate; CallAllocate] fresh_world).2
  = [1; 2; 3; 1; 0; 0].
Proof. reflexivity. Qed.

(** The full one-entry free list: id 2 is dropped and the variable still
    ends up holding the sentinel; freeing the sentinel changes nothing. *)
Lemma Free_overwrites_caller_id_witness :
  let a := {| next_item_owner_id_ := 0; has_wrapped_around_ := true;
              free_ids_ := [1] |} in
  (Free a 2).2 = 0 /\ Free a 2 = (a, 0) /\ Free a 0 = (a, 0).
Proof.
  intros a.
  destruct (Free_overwrites_caller_id a 2) as (H1 & H2 & _).
  destruct (Free_overwrites_caller_id a 0) as (_ & _ & H3 & _).
  split_and!.
  - apply H1. discriminate.
  - apply H2; [discriminate | vm_compute; discriminate].
  - apply H3. reflexivity.
Defined.

End TinyAllocatorRuns.

(** * Properties of the string-driven constructors *)
Import Construction.

Section StringFacts.

Lemma occurs_at_front_spec pat : forall s,
  Str.occurs_at_front pat s = true <-> exists rest, s = String.append pat rest.
Proof.
  induction pat as [|a pat IH]; intros s; simpl.
  - split; [eauto | done].
  - destruct s as [|b s]; simpl.
    + split; [done | intros [rest Hr]; discriminate].
    + rewrite andb_true_iff, IH, Ascii.eqb_eq. split.
      * intros [-> [rest ->]]. eauto.
      * intros [rest Hr]. injection Hr as -> ->. eauto.
Qed.

Lemma find_from_ge pat : forall s pos n,
  Str.find_from pos pat s = Some n -> (pos <= n)%nat.
Proof.
  induction s as [|b s IH]; intros pos n; simpl.
  - destruct (Str.occurs_at_front pat _); [|done]. intros [= ->]. lia.
  - destruct (Str.occurs_at_front pat _).
    + intros [= ->]. lia.
    + intros Hf. apply IH in Hf. lia.
Qed.

(** [s.find(pat) == 0] says that [s] begins with [pat]. *)
Lemma find_zero_iff_begins s pat :
  Str.find s pat = Some 0%nat <-> exists rest, s = String.append pat rest.
Proof.
  rewrite <- occurs_at_front_spec. unfold Str.find.
  destruct s as [|b s]; simpl; destruct (Str.occurs_at_front pat _) eqn:E.
  - done.
  - done.
  - done.
  - split; [|done]. intros Hf. apply find_from_ge in Hf. lia.
Qed.

Lemma erase_front_append pat : forall rest,
  Str.erase_front (Str.strlen pat) (String.append pat rest) = rest.
Proof. induction pat as [|a pat IH]; intros rest; simpl; [by destruct rest | apply IH]. Qed.

Lemma occurs_at_front_char c b s :
  Str.occurs_at_front (String c EmptyString) (String b s) = Ascii.eqb c b.
Proof. simpl. apply andb_true_r. Qed.

Lemma find_from_None_char c : forall s pos,
  Str.find_from pos (String c EmptyString) s = None <->
  ~ In c (list_ascii_of_string s).
Proof.
  induction s as [|b s IH]; intros pos.
  - simpl. tauto.
  - change (Str.find_from pos (String c EmptyString) (String b s))
      with (if Str.occurs_at_front (String c EmptyString) (String b s)
            then Some pos
            else Str.find_from (S pos) (String c EmptyString) s).
    rewrite occurs_at_front_char.
    change (list_ascii_of_string (String b s))
      with (b :: list_ascii_of_string s).
    destruct (Ascii.eqb_spec c b) as [->|Hne].
    + split; [done | intros H; contradict H; by left].
    + rewrite IH. split.
      * intros H [?|?]; [congruence | auto].
      * intros H Hin. apply H. by right.
Qed.

(** [s.find(c) == npos] says that [c] does not occur in [s]. *)
Lemma find_char_npos_iff s c :
  Str.find_char s c = None <-> ~ In c (list_ascii_of_string s).
Proof. apply find_from_None_char. Qed.

End StringFacts.

Section ConstructionFacts.
Context `{C : Collaborators}.

Lemma ok_false_code (st : Status) : ok st = false <-> code st <> kOk.
Proof. unfold ok. destruct (code st); split; congruence. Qed.

Lemma SecondaryCache_CreateFromString_scheme lite cfg args result :
  SecondaryCache_CreateFromString lite cfg (String.append scheme args) result =
  CompressedSecondaryCache_path lite cfg args result.
Proof.
  unfold SecondaryCache_CreateFromString.
  assert (Str.find (String.append scheme args) scheme = Some 0%nat) as ->
    by (apply find_zero_iff_begins; eauto).
  by rewrite erase_front_append.
Qed.

Lemma SecondaryCache_CreateFromString_other lite cfg value result :
  (~ exists args, value = String.append scheme args) ->
  SecondaryCache_CreateFromString lite cfg value result =
  LoadSharedObject cfg value None result.
Proof.
  intros Hn. unfold SecondaryCache_CreateFromString.
  destruct (Str.find value scheme) as [[|n]|] eqn:E; try done.
  exfalso. apply Hn. by apply find_zero_iff_begins.
Qed.

(** The status of the scheme path is not ok exactly when [*result] keeps
    its old value. *)
Lemma CompressedSecondaryCache_path_failure lite cfg args result :
  ok (CompressedSecondaryCache_path lite cfg args result).1 = false ->
  (CompressedSecondaryCache_path lite cfg args result).2 = result.
Proof.
  unfold CompressedSecondaryCache_path. destruct lite.
  - done.
  - destruct (ParseStruct _ _ _ _ _ _ _ _) as [st o].
    destruct (ok st) eqn:E; simpl; rewrite E; simpl; congruence.
Qed.

Lemma Cache_CreateFromString_failure lite cfg value result :
  ok (Cache_CreateFromString lite cfg value result).1 = false ->
  (Cache_CreateFromString lite cfg value result).2 = result.
Proof.
  unfold Cache_CreateFromString.
  destruct (Str.find_char value "=") as [n|].
  - destruct lite.
    + done.
    + destruct (ParseStruct _ _ _ _ _ _ _ _) as [st o].
      destruct (ok st) eqn:E; simpl; rewrite E; simpl; congruence.
  - done.
Qed.

(** C7. A string without ['='] goes to [ParseSizeT] and the cache is the one
    [NewLRUCache] builds from the default options with that capacity, in
    either build profile, with an ok status; when [ParseSizeT] reads
    ["1048576"] as 1048576, that string gives capacity 1048576 with the
    default shard bits, strict flag and pool ratios. *)
Theorem Cache_CreateFromString_plain_size lite cfg result :
  (forall value, ~ In "="%char (list_ascii_of_string value) ->
     Cache_CreateFromString lite cfg value result =
       (Status_OK,
        NewLRUCache (with_capacity (ParseSizeT value) LRUCacheOptions_default))) /\
  (ParseSizeT "1048576" = 1048576 ->
     exists opts,
       Cache_CreateFromString lite cfg "1048576" result =
         (Status_OK, NewLRUCache opts) /\
       capacity opts = 1048576 /\
       num_shard_bits opts = num_shard_bits LRUCacheOptions_default /\
       strict_capacity_limit opts =
         strict_capacity_limit LRUCacheOptions_default /\
       high_pri_pool_ratio opts = high_pri_pool_ratio LRUCacheOptions_default /\
       low_pri_pool_ratio opts = low_pri_pool_ratio LRUCacheOptions_default).
Proof.
  assert (Hplain : forall value, ~ In "="%char (list_ascii_of_string value) ->
     Cache_CreateFromString lite cfg value result =
       (Status_OK,
        NewLRUCache (with_capacity (ParseSizeT value) LRUCacheOptions_default))).
  { intros value Hno. apply find_char_npos_iff in Hno.
    unfold Cache_CreateFromString. by rewrite Hno. }
  split; [exact Hplain|].
  intros Hparse. exists (with_capacity 1048576 LRUCacheOptions_default).
  split; [|done]. rewrite <- Hparse. apply Hplain.
  simpl. intros H. repeat (destruct H as [H|H]; [discriminate H|]). done.
Qed.

(** C8. The scheme path is entered exactly by the strings that begin with
    [compressed_secondary_cache://]: such a string runs the path on the
    remainder, which in the full build is parsed by [ParseStruct] against
    the table whose keys are capacity, num_shard_bits, compression_type,
    compress_format_version and enable_custom_split_merge; every other
    string goes, as it is, to [LoadSharedObject] with a null factory and the
    caller's [result]. *)
Theorem SecondaryCache_CreateFromString_dispatch lite cfg value result :
  (Str.find value scheme = Some 0%nat <->
   exists args, value = String.append scheme args) /\
  (forall args, value = String.append scheme args ->
     SecondaryCache_CreateFromString lite cfg value result =
       CompressedSecondaryCache_path lite cfg args result /\
     CompressedSecondaryCache_path false cfg args result =
       (let '(status, sec_cache_opts) :=
          ParseStruct _ _ cfg EmptyString comp_sec_cache_options_type_info
            EmptyString args CompressedSecondaryCacheOptions_default in
        if ok status
        then (status, NewCompressedSecondaryCache sec_cache_opts)
        else (status, result))) /\
  ((~ exists args, value = String.append scheme args) ->
     SecondaryCache_CreateFromString lite cfg value result =
       LoadSharedObject cfg value None result) /\
  (forall k : string,
     is_Some (comp_sec_cache_options_type_info !! k) <->
     k ∈ ["capacity"; "num_shard_bits"; "compression_type";
          "compress_format_version"; "enable_custom_split_merge"]%string).
Proof.
  split_and!.
  - apply find_zero_iff_begins.
  - intros args ->. split.
    + apply SecondaryCache_CreateFromString_scheme.
    + unfold CompressedSecondaryCache_path.
      destruct (ParseStruct _ _ _ _ _ _ _ _) as [st o].
      destruct (ok st) eqn:E; simpl; by rewrite E.
  - apply SecondaryCache_CreateFromString_other.
  - intros k. rewrite <- elem_of_dom.
    unfold comp_sec_cache_options_type_info.
    rewrite dom_list_to_map_L. simpl. set_solver.
Qed.



(** C10. In the LITE build a secondary-cache string with the scheme prefix
    and a primary-cache string containing ['='] both return NotSupported
    and leave [*result] as it was: no cache is built in their place. *)
Theorem CreateFromString_LITE_NotSupported cfg :
  (forall args result,
     SecondaryCache_CreateFromString true cfg (String.append scheme args) result
     = (Status_NotSupported
          "Cannot load compressed secondary cache in LITE mode " args,
        result)) /\
  (forall value result,
     In "="%char (list_ascii_of_string value) ->
     Cache_CreateFromString true cfg value result
     = (Status_NotSupported "Cannot load cache in LITE mode " value, result)).
Proof.
  split.
  - intros args result. by rewrite SecondaryCache_CreateFromString_scheme.
  - intros value result Hin. unfold Cache_CreateFromString.
    destruct (Str.find_char value "=") as [n|] eqn:E; [done|].
    apply find_char_npos_iff in E. done.
Qed.

End ConstructionFacts.

Section ConstructionRuns.
#[local] Existing Instance Sample.types.
#[local] Existing Instance Sample.collaborators.

Example Cache_CreateFromString_1048576 :
  Cache_CreateFromString false Sample.cfg "1048576" None
  = (Status_OK, Some (1048576, -1, false)).
Proof. reflexivity. Qed.

Lemma Cache_CreateFromString_plain_size_witness :
  Cache_CreateFromString false Sample.cfg "4096" None =
    (Status_OK,
     NewLRUCache (with_capacity (ParseSizeT "4096") LRUCacheOptions_default)) /\
  exists opts,
    Cache_CreateFromString false Sample.cfg "1048576" None =
      (Status_OK, NewLRUCache opts) /\
    capacity opts = 1048576 /\
    num_shard_bits opts = num_shard_bits LRUCacheOptions_default /\
    strict_capacity_limit opts =
      strict_capacity_limit LRUCacheOptions_default /\
    high_pri_pool_ratio opts = high_pri_pool_ratio LRUCacheOptions_default /\
    low_pri_pool_ratio opts = low_pri_pool_ratio LRUCacheOptions_default.
Proof.
  destruct (Cache_CreateFromString_plain_size false Sample.cfg None) as [H1 H2].
  split.
  - apply H1. simpl. intros H.
    repeat (destruct H as [H|H]; [discriminate H|]). exact H.
  - apply H2. reflexivity.
Defined.

Lemma SecondaryCache_CreateFromString_dispatch_witness :
  SecondaryCache_CreateFromString false Sample.cfg
    "compressed_secondary_cache://capacity=1" None
  = CompressedSecondaryCache_path false Sample.cfg "capacity=1" None /\
  SecondaryCache_CreateFromString false Sample.cfg "my_secondary_cache" None
  = LoadSharedObject Sample.cfg "my_secondary_cache" None None.
Proof.
  split.
  - destruct (SecondaryCache_CreateFromString_dispatch false Sample.cfg
                "compressed_secondary_cache://capacity=1" None)
      as (_ & H & _ & _).
    apply (H "capacity=1"%string). reflexivity.
  - destruct (SecondaryCache_CreateFromString_dispatch false Sample.cfg
                "my_secondary_cache" None) as (_ & _ & H & _).
    apply H. intros [args Ha]. discriminate Ha.
Defined.

Example SecondaryCache_CreateFromString_parse_error :
  SecondaryCache_CreateFromString false Sample.cfg
    "compressed_secondary_cache://capacity=1" Sample.old_secondary
  = (Status_InvalidArgument "Unable to parse the specified options"
       "capacity=1", Sample.old_secondary).
Proof. reflexivity. Qed.

Lemma CreateFromString_LITE_NotSupported_witness :
  Cache_CreateFromString true Sample.cfg "capacity=2048;num_shard_bits=2"
    Sample.old_cache
  = (Status_NotSupported "Cannot load cache in LITE mode "
       "capacity=2048;num_shard_bits=2", Sample.old_cache).
Proof.
  destruct (CreateFromString_LITE_NotSupported Sample.cfg) as [_ H].
  apply H. simpl. tauto.
Defined.

End ConstructionRuns.

Section KeyedConstructionRuns.
#[local] Existing Instance Sample.types.
#[local] Existing Instance Sample.keyed_collaborators.

(** The keyed parser accepts the options the table names and rejects a key
    it does not know. *)
Example keyed_parser_accepts_known_keys :
  ParseStruct _ _ Sample.cfg EmptyString lru_cache_options_type_info
    EmptyString "capacity=2048;num_shard_bits=2" Sample.lru_defaults
  = (Status_OK, Sample.lru_defaults).
Proof. vm_compute. reflexivity. Qed.


End KeyedConstructionRuns.

Section NullFactoryRuns.
#[local] Existing Instance Sample.types.
#[local] Existing Instance Sample.null_factory_collaborators.


End NullFactoryRuns.

(** * Further properties of the owner-id allocator *)
Section AllocatorSequences.
Context `{K : OwnerIdConsts}.

Lemma run_app cs1 : forall cs2 w,
  run (cs1 ++ cs2) w =
    ((run cs2 (run cs1 w).1).1, (run cs1 w).2 ++ (run cs2 (run cs1 w).1).2).
Proof.
  induction cs1 as [|c cs1 IH]; intros cs2 w.
  - simpl. by destruct (run cs2 w).
  - change ((c :: cs1) ++ cs2) with (c :: (cs1 ++ cs2)).
    rewrite !run_cons, IH. simpl. by rewrite app_assoc.
Qed.

(** What [Allocate] does to the length of the free list. *)
Lemma Allocate_length a :
  (length (free_ids_ (Allocate a).1) <= length (free_ids_ a))%nat.
Proof.
  destruct (free_ids_ a) as [|x rest] eqn:E.
  - unfold Allocate. rewrite E.
    destruct (has_wrapped_around_ a); simpl; rewrite ?E; simpl; lia.
  - rewrite (Allocate_nonempty a x rest E). simpl. lia.
Qed.

Lemma Free_length a id :
  Z.of_nat (length (free_ids_ (Free a id).1))
  <= Z.max (Z.of_nat (length (free_ids_ a))) kMaxFreeItemOwnersIdListSize.
Proof.
  unfold Free. destruct (negb _); simpl; [|lia].
  destruct (Z.ltb_spec (Z.of_nat (length (free_ids_ a)))
              kMaxFreeItemOwnersIdListSize); simpl; [|lia].
  rewrite length_app. simpl. lia.
Qed.

(** X1. Handing an id back to a cache whose free list is empty and asking
    for an id again returns that very id and the cache as it was before;
    the caller's variable holds the sentinel in between. *)
Theorem Discard_then_GetNext_round_trip c id :
  free_ids_ (owner_id_allocator_ c) = [] ->
  id <> kUnknownItemId ->
  0 < kMaxFreeItemOwnersIdListSize ->
  (DiscardItemOwnerId c id).2 = kUnknownItemId /\
  GetNextItemOwnerId (DiscardItemOwnerId c id).1 = (c, id).
Proof.
  intros E Hid Hcap. destruct c as [a]. simpl in E.
  unfold DiscardItemOwnerId, GetNextItemOwnerId. simpl.
  rewrite Free_push by (rewrite ?E; simpl; done || lia). simpl.
  split; [done|].
  erewrite Allocate_nonempty by (simpl; rewrite E; reflexivity).
  destruct a as [n wr fr]. simpl in *. by subst fr.
Qed.

(** X2. Calling [Free] a second time through the same variable changes
    nothing: the first call left the sentinel in it. *)
Theorem Free_twice_same_variable a id :
  (Free (Free a id).1 (Free a id).2) = Free a id.
Proof.
  unfold Free at 2 3 4.
  destruct (Z.eqb_spec id kUnknownItemId) as [->|Hne]; simpl.
  - apply Free_unknown.
  - apply Free_unknown.
Qed.

(** X3. Whatever calls are made, with whatever ids, the free list never
    grows beyond the larger of its initial length and
    [kMaxFreeItemOwnersIdListSize]; from a fresh allocator it never holds
    more than [kMaxFreeItemOwnersIdListSize] entries. *)
Theorem free_list_stays_bounded cs :
  (forall w,
     Z.of_nat (length (free_ids_ (alloc (run cs w).1)))
     <= Z.max (Z.of_nat (length (free_ids_ (alloc w))))
              kMaxFreeItemOwnersIdListSize) /\
  Z.of_nat (length (free_ids_ (alloc (run cs fresh_world).1)))
  <= Z.max 0 kMaxFreeItemOwnersIdListSize.
Proof.
  assert (H : forall w,
     Z.of_nat (length (free_ids_ (alloc (run cs w).1)))
     <= Z.max (Z.of_nat (length (free_ids_ (alloc w))))
              kMaxFreeItemOwnersIdListSize).
  { induction cs as [|c cs IH]; intros w.
    - simpl. lia.
    - rewrite run_cons. simpl. etrans; [apply IH|].
      destruct c as [|id]; simpl.
      + pose proof (Allocate_length (alloc w)).
        destruct (Allocate (alloc w)) as [a r]. simpl in *. lia.
      + pose proof (Free_length (alloc w) id). lia. }
  split; [exact H|]. apply (H fresh_world).
Qed.

(** X4. Exhaustion of the counter is permanent: once [has_wrapped_around_]
    is set, no sequence of calls clears it or moves the counter, and every
    id returned from then on is the sentinel, an id that was on the free
    list, or an id passed to [Free] in the meantime. *)
Theorem exhaustion_is_permanent cs : forall w,
  has_wrapped_around_ (alloc w) = true ->
  has_wrapped_around_ (alloc (run cs w).1) = true /\
  next_item_owner_id_ (alloc (run cs w).1) = next_item_owner_id_ (alloc w) /\
  forall x, x ∈ (run cs w).2 ->
    x = kUnknownItemId \/ x ∈ free_ids_ (alloc w) \/ CallFree x ∈ cs.
Proof.
  induction cs as [|c cs IH]; intros w W.
  - simpl. split_and!; [done | done | set_solver].
  - rewrite run_cons. simpl. destruct c as [|id]; simpl.
    + destruct (free_ids_ (alloc w)) as [|y rest] eqn:E.
      * rewrite (Allocate_exhausted _ E W). simpl.
        destruct (IH {| alloc := alloc w;
                        live := if kUnknownItemId =? kUnknownItemId
                                then live w
                                else {[kUnknownItemId]} ∪ live w |} W)
          as (IH1 & IH2 & IH3).
        split_and!; [done | done |]. intros x Hx. simpl in IH3.
        rewrite E in IH3. set_solver.
      * rewrite (Allocate_nonempty _ y rest E). simpl.
        edestruct (IH {| alloc := {| next_item_owner_id_ :=
                                       next_item_owner_id_ (alloc w);
                                     has_wrapped_around_ :=
                                       has_wrapped_around_ (alloc w);
                                     free_ids_ := rest |};
                         live := if y =? kUnknownItemId then live w
                                 else {[y]} ∪ live w |} W)
          as (IH1 & IH2 & IH3).
        split_and!; [done | done |]. intros x Hx. simpl in IH3. set_solver.
    + destruct (Free_counter (alloc w) id) as [En Ew].
      destruct (IH {| alloc := (Free (alloc w) id).1;
                      live := live w ∖ {[id]} |}) as (IH1 & IH2 & IH3).
      { simpl. congruence. }
      simpl in *. split_and!; [done | congruence |]. intros x Hx.
      destruct (IH3 x Hx) as [?|[Hin|?]]; [by left | | set_solver].
      destruct (Free_free_ids (alloc w) id) as [E | [_ E]];
        rewrite E in Hin; set_solver.
Qed.

(** Two facts that hold of the allocator itself after any calls at all:
    the sentinel is never on the free list, and a counter that has not
    wrapped stands between [kMinOwnerItemId] and [kMaxOwnerItemId]. *)
Lemma shape_step w c :
  consts_in_range ->
  kUnknownItemId ∉ free_ids_ (alloc w) ->
  (has_wrapped_around_ (alloc w) = false ->
   kMinOwnerItemId <= next_item_owner_id_ (alloc w) <= kMaxOwnerItemId) ->
  (kUnknownItemId ∉ free_ids_ (alloc (do_call w c).1)) /\
  (has_wrapped_around_ (alloc (do_call w c).1) = false ->
   kMinOwnerItemId <= next_item_owner_id_ (alloc (do_call w c).1)
   <= kMaxOwnerItemId).
Proof.
  intros (H0 & Hle & HM) Hu Hc. destruct c as [|id]; simpl.
  - destruct (free_ids_ (alloc w)) as [|y rest] eqn:E.
    + destruct (has_wrapped_around_ (alloc w)) eqn:W.
      * rewrite (Allocate_exhausted _ E W). simpl. rewrite E, W. done.
      * rewrite (Allocate_counter _ E W). simpl.
        specialize (Hc eq_refl). split; [set_solver|].
        destruct (Z.eqb_spec (next_item_owner_id_ (alloc w)) kMaxOwnerItemId);
          [done|]. intros _. rewrite incr_id_in_range by lia. lia.
    + rewrite (Allocate_nonempty _ y rest E). simpl. split; [set_solver | done].
  - destruct (Free_counter (alloc w) id) as [-> ->]. split; [|done].
    destruct (Free_free_ids (alloc w) id) as [E | [Hne E]]; rewrite E;
      set_solver.
Qed.

Lemma shape_run cs : forall w,
  consts_in_range ->
  kUnknownItemId ∉ free_ids_ (alloc w) ->
  (has_wrapped_around_ (alloc w) = false ->
   kMinOwnerItemId <= next_item_owner_id_ (alloc w) <= kMaxOwnerItemId) ->
  (kUnknownItemId ∉ free_ids_ (alloc (run cs w).1)) /\
  (has_wrapped_around_ (alloc (run cs w).1) = false ->
   kMinOwnerItemId <= next_item_owner_id_ (alloc (run cs w).1)
   <= kMaxOwnerItemId).
Proof.
  induction cs as [|c cs IH]; intros w HK Hu Hc.
  - done.
  - rewrite run_cons. simpl.
    destruct (shape_step w c HK Hu Hc) as [Hu' Hc']. by apply IH.
Qed.

(** X5. With the sentinel outside [kMinOwnerItemId .. kMaxOwnerItemId],
    after any calls on a fresh allocator (disciplined or not) [Allocate]
    returns the sentinel exactly when the counter is exhausted and the free
    list is empty: it never fails while an id is available, and never
    passes the sentinel off as an id. *)
Theorem Allocate_fails_only_when_exhausted cs :
  consts_in_range ->
  kUnknownItemId < kMinOwnerItemId \/ kMaxOwnerItemId < kUnknownItemId ->
  let a := alloc (run cs fresh_world).1 in
  (Allocate a).2 = kUnknownItemId <->
  has_wrapped_around_ a = true /\ free_ids_ a = [].
Proof.
  intros HK Hout a.
  destruct (shape_run cs fresh_world HK) as [Hu Hc].
  { simpl. set_solver. }
  { simpl. destruct HK as (? & ? & ?). lia. }
  fold a in Hu, Hc.
  destruct (free_ids_ a) as [|y rest] eqn:E.
  - destruct (has_wrapped_around_ a) eqn:W.
    + rewrite (Allocate_exhausted a E W). done.
    + rewrite (Allocate_counter a E W). simpl. specialize (Hc eq_refl).
      split; [lia | intros [? _]; done].
  - rewrite (Allocate_nonempty a y rest E). simpl.
    split; [intros -> | intros [_ ?]; done]. set_solver.
Qed.

Lemma run_Allocate_below_max k : forall w,
  kMaxOwnerItemId < ItemOwnerId_modulus ->
  free_ids_ (alloc w) = [] -> has_wrapped_around_ (alloc w) = false ->
  0 <= next_item_owner_id_ (alloc w) ->
  next_item_owner_id_ (alloc w) + Z.of_nat k <= kMaxOwnerItemId ->
  alloc (run (replicate k CallAllocate) w).1 =
    {| next_item_owner_id_ := next_item_owner_id_ (alloc w) + Z.of_nat k;
       has_wrapped_around_ := false; free_ids_ := [] |} /\
  (run (replicate k CallAllocate) w).2 =
    seqZ (next_item_owner_id_ (alloc w)) (Z.of_nat k).
Proof.
  induction k as [|k IH]; intros w HM E W H0 Hk.
  - simpl. rewrite Z.add_0_r. destruct w as [[n wr fr] lv]; simpl in *.
    by subst.
  - change (replicate (S k) CallAllocate)
      with (CallAllocate :: replicate k CallAllocate).
    rewrite run_cons. simpl.
    rewrite (Allocate_below_max _ E W HM) by lia. simpl.
    match goal with |- context [run _ ?w1] => destruct (IH w1) as [IH1 IH2] end;
      simpl; try done; try lia.
    rewrite IH1, IH2. simpl. split.
    + f_equal. lia.
    + rewrite (seqZ_cons _ (Z.of_nat (S k))) by lia.
      do 2 f_equal; lia.
Qed.

Lemma run_Allocate_exhausted m : forall w,
  has_wrapped_around_ (alloc w) = true -> free_ids_ (alloc w) = [] ->
  alloc (run (replicate m CallAllocate) w).1 = alloc w /\
  (run (replicate m CallAllocate) w).2 = replicate m kUnknownItemId.
Proof.
  induction m as [|m IH]; intros w W E.
  - done.
  - change (replicate (S m) CallAllocate)
      with (CallAllocate :: replicate m CallAllocate).
    rewrite run_cons. simpl. rewrite (Allocate_exhausted _ E W). simpl.
    match goal with |- context [run _ ?w1] => destruct (IH w1) as [IH1 IH2] end;
      simpl; try done.
    rewrite IH1, IH2. done.
Qed.

(** X6. A fresh allocator on which nothing is freed hands out
    [kMinOwnerItemId], [kMinOwnerItemId + 1], ... up to and including
    [kMaxOwnerItemId], each once and in this order, and returns the sentinel
    on every call after that. *)
Theorem fresh_allocator_hands_out_the_whole_range n m :
  consts_in_range ->
  Z.of_nat n = kMaxOwnerItemId - kMinOwnerItemId + 1 ->
  (run (replicate (n + m) CallAllocate) fresh_world).2 =
    seqZ kMinOwnerItemId (Z.of_nat n) ++ replicate m kUnknownItemId.
Proof.
  intros (H0 & Hle & HM) Hn.
  destruct n as [|n]; [lia|].
  rewrite replicate_add, replicate_S_end, !run_app. simpl.
  destruct (run_Allocate_below_max n fresh_world) as [E1 E2];
    simpl; try done; try lia.
  rewrite E2. clear E2.
  set (w1 := (run (replicate n CallAllocate) fresh_world).1) in *.
  assert (En : next_item_owner_id_ (alloc w1) = kMaxOwnerItemId)
    by (rewrite E1; simpl; lia).
  assert (A : Allocate (alloc w1) =
              ({| next_item_owner_id_ := incr_id kMaxOwnerItemId;
                  has_wrapped_around_ := true; free_ids_ := [] |},
               kMaxOwnerItemId)).
  { rewrite Allocate_counter by (rewrite E1; done).
    rewrite En, Z.eqb_refl. done. }
  rewrite A. simpl.
  match goal with |- context [run (replicate m _) ?w2] =>
    destruct (run_Allocate_exhausted m w2) as [_ E3] end; simpl; try done.
  rewrite E3, seqZ_S. f_equal. do 2 f_equal. lia.
Qed.

Lemma run_Frees xs : forall w,
  Forall (fun x => x <> kUnknownItemId) xs ->
  Z.of_nat (length (free_ids_ (alloc w)) + length xs)
    <= kMaxFreeItemOwnersIdListSize ->
  alloc (run (CallFree <$> xs) w).1 =
    {| next_item_owner_id_ := next_item_owner_id_ (alloc w);
       has_wrapped_around_ := has_wrapped_around_ (alloc w);
       free_ids_ := free_ids_ (alloc w) ++ xs |} /\
  (run (CallFree <$> xs) w).2 = [].
Proof.
  induction xs as [|x xs IH]; intros w Hxs Hroom.
  - simpl. rewrite app_nil_r. by destruct (alloc w).
  - apply Forall_cons in Hxs as [Hx Hxs].
    change (CallFree <$> x :: xs) with (CallFree x :: (CallFree <$> xs)).
    rewrite run_cons. simpl in *.
    match goal with |- context [run _ ?w1] => destruct (IH w1) as [IH1 IH2] end.
    { done. }
    { simpl. rewrite Free_push by (done || lia). simpl.
      rewrite length_app. simpl. lia. }
    rewrite IH1, IH2. simpl. rewrite Free_push by (done || lia). simpl.
    by rewrite <- app_assoc.
Qed.

Lemma run_pops l : forall w,
  free_ids_ (alloc w) = l ->
  alloc (run (replicate (length l) CallAllocate) w).1 =
    {| next_item_owner_id_ := next_item_owner_id_ (alloc w);
       has_wrapped_around_ := has_wrapped_around_ (alloc w);
       free_ids_ := [] |} /\
  (run (replicate (length l) CallAllocate) w).2 = l.
Proof.
  induction l as [|y l IH]; intros w E.
  - simpl. rewrite <- E. by destruct (alloc w).
  - change (replicate (length (y :: l)) CallAllocate)
      with (CallAllocate :: replicate (length l) CallAllocate).
    rewrite run_cons. simpl. rewrite (Allocate_nonempty _ y l E). simpl.
    match goal with |- context [run _ ?w1] => destruct (IH w1) as [IH1 IH2] end.
    { done. }
    by rewrite IH1, IH2.
Qed.

(** X7. The free list is a queue: when ids (none the sentinel) are freed
    and the list has room for all of them, as many [Allocate] calls as the
    list then has entries return the old entries followed by the freed ids,
    in the order they were freed, and leave the list empty and the counter
    untouched. *)
Theorem freed_ids_come_back_in_order w xs :
  Forall (fun x => x <> kUnknownItemId) xs ->
  Z.of_nat (length (free_ids_ (alloc w)) + length xs)
    <= kMaxFreeItemOwnersIdListSize ->
  let cs := (CallFree <$> xs) ++
            replicate (length (free_ids_ (alloc w) ++ xs)) CallAllocate in
  (run cs w).2 = free_ids_ (alloc w) ++ xs /\
  alloc (run cs w).1 =
    {| next_item_owner_id_ := next_item_owner_id_ (alloc w);
       has_wrapped_around_ := has_wrapped_around_ (alloc w);
       free_ids_ := [] |}.
Proof.
  intros Hxs Hroom cs. subst cs. rewrite run_app. simpl.
  destruct (run_Frees xs w Hxs Hroom) as [E1 E2]. rewrite E2. simpl.
  destruct (run_pops (free_ids_ (alloc w) ++ xs)
              (run (CallFree <$> xs) w).1) as [E3 E4].
  { by rewrite E1. }
  rewrite E3, E4, E1. done.
Qed.

Lemma ids_in_range_fresh : consts_in_range -> ids_in_range fresh_world.
Proof.
  intros (H0 & Hle & HM). unfold ids_in_range. simpl.
  split_and!; [set_solver | set_solver | lia].
Qed.

Lemma ids_in_range_step w c :
  consts_in_range -> ids_in_range w -> permitted w c ->
  ids_in_range (do_call w c).1 /\
  forall x, x ∈ (do_call w c).2 ->
    x = kUnknownItemId \/ kMinOwnerItemId <= x <= kMaxOwnerItemId.
Proof.
  intros (H0 & Hle & HM) (Hl & Hf & Hc) Hp. unfold ids_in_range.
  destruct w as [a lv]. destruct c as [|id]; simpl in *.
  - destruct (free_ids_ a) as [|y rest] eqn:E.
    + destruct (has_wrapped_around_ a) eqn:W.
      * rewrite (Allocate_exhausted a E W). simpl. rewrite Z.eqb_refl, E, W.
        split_and!; auto. set_solver.
      * rewrite (Allocate_counter a E W). simpl. specialize (Hc eq_refl).
        split_and!.
        -- intros x. destruct (_ =? kUnknownItemId); [auto|].
           rewrite elem_of_union, elem_of_singleton. intros [->|?]; auto.
        -- set_solver.
        -- destruct (Z.eqb_spec (next_item_owner_id_ a) kMaxOwnerItemId);
             [done|]. intros _. rewrite incr_id_in_range by lia. lia.
        -- intros x Hx. apply list_elem_of_singleton in Hx as ->. by right.
    + rewrite (Allocate_nonempty a y rest E). simpl.
      assert (Hy : kMinOwnerItemId <= y <= kMaxOwnerItemId)
        by (apply Hf; set_solver).
      split_and!.
      * intros x. destruct (_ =? kUnknownItemId); [auto|].
        rewrite elem_of_union, elem_of_singleton. intros [->|?]; auto.
      * intros x Hx. apply Hf. set_solver.
      * done.
      * intros x Hx. apply list_elem_of_singleton in Hx as ->. by right.
  - destruct (Free_counter a id) as [-> ->]. split_and!.
    + intros x Hx. apply Hl. set_solver.
    + intros x. destruct (Free_free_ids a id) as [E | [Hne E]]; rewrite E.
      * apply Hf.
      * rewrite elem_of_app, list_elem_of_singleton. intros [?| ->]; [auto|].
        destruct Hp as [?|Hin]; [done | auto].
    + done.
    + set_solver.
Qed.

(** X8. In a disciplined run from a fresh allocator every id that
    [Allocate] returns is the sentinel or lies between [kMinOwnerItemId]
    and [kMaxOwnerItemId], and so does every id held or on the free list at
    the end. *)
Theorem issued_ids_stay_in_range cs :
  consts_in_range -> disciplined cs fresh_world ->
  (forall x, x ∈ (run cs fresh_world).2 ->
     x = kUnknownItemId \/ kMinOwnerItemId <= x <= kMaxOwnerItemId) /\
  ids_in_range (run cs fresh_world).1.
Proof.
  intros HK. pose proof (ids_in_range_fresh HK) as HR. revert HR.
  generalize fresh_world. induction cs as [|c cs IH]; intros w HR Hd.
  - simpl. split; [set_solver | done].
  - destruct Hd as [Hp Hd]. rewrite run_cons. simpl.
    destruct (ids_in_range_step w c HK HR Hp) as [HR' Hout].
    destruct (IH _ HR' Hd) as [IH1 IH2]. split; [|done].
    intros x. rewrite elem_of_app. intros [?|?]; auto.
Qed.

(** A duplicate-free list of ids of the range is no longer than the range. *)
Lemma NoDup_in_range_length (l : list Z) :
  NoDup l ->
  (forall x, x ∈ l -> kMinOwnerItemId <= x <= kMaxOwnerItemId) ->
  Z.of_nat (length l) <= Z.max 0 (kMaxOwnerItemId - kMinOwnerItemId + 1).
Proof.
  intros Hnd Hin.
  assert (l ⊆+ seqZ kMinOwnerItemId (kMaxOwnerItemId - kMinOwnerItemId + 1))
    as Hsub.
  { apply NoDup_submseteq; [done|]. intros x Hx. apply elem_of_seqZ.
    specialize (Hin x Hx). lia. }
  apply submseteq_length in Hsub. rewrite length_seqZ in Hsub. lia.
Qed.

Lemma all_ids_accounted_step w c :
  consts_in_range ->
  kUnknownItemId < kMinOwnerItemId \/ kMaxOwnerItemId < kUnknownItemId ->
  kMaxOwnerItemId - kMinOwnerItemId + 1 <= kMaxFreeItemOwnersIdListSize ->
  Inv w -> ids_in_range w -> all_ids_accounted w -> permitted w c ->
  all_ids_accounted (do_call w c).1.
Proof.
  intros (H0 & Hle & HM) Hout Hroom HI (Hl & Hf & Hc) HA Hp x Hx.
  specialize (HA x Hx). destruct w as [a lv]. destruct c as [|id]; simpl in *.
  - destruct (free_ids_ a) as [|y rest] eqn:E.
    + destruct (has_wrapped_around_ a) eqn:W.
      * rewrite (Allocate_exhausted a E W). simpl. rewrite Z.eqb_refl, E.
        done.
      * rewrite (Allocate_counter a E W). simpl. specialize (Hc eq_refl).
        destruct (Z.eqb_spec (next_item_owner_id_ a) kUnknownItemId); [lia|].
        destruct HA as [?|[?|[_ Hr]]]; [set_solver | set_solver |].
        destruct (decide (x = next_item_owner_id_ a)) as [->|Hne];
          [set_solver|].
        right; right. split; simpl.
        -- destruct (Z.eqb_spec (next_item_owner_id_ a) kMaxOwnerItemId);
             [lia | done].
        -- rewrite incr_id_in_range by lia. lia.
    + rewrite (Allocate_nonempty a y rest E). simpl.
      assert (Hy : kMinOwnerItemId <= y <= kMaxOwnerItemId)
        by (apply Hf; set_solver).
      destruct (Z.eqb_spec y kUnknownItemId); [lia|].
      destruct HA as [?|[Hin|?]]; [set_solver | | by right; right].
      apply elem_of_cons in Hin as [->|?]; set_solver.
  - destruct Hp as [->|Hlive].
    + rewrite Free_unknown. simpl.
      destruct HA as [?|[?|?]]; [|by right; left | by right; right].
      left. apply elem_of_difference. split; [done|].
      rewrite elem_of_singleton. lia.
    + assert (Hid : kMinOwnerItemId <= id <= kMaxOwnerItemId) by auto.
      assert (Hnf : id ∉ free_ids_ a).
      { intros Hin. by apply (inv_free_not_live _ HI id). }
      assert (Hlen : Z.of_nat (length (free_ids_ a))
                     < kMaxFreeItemOwnersIdListSize).
      { assert (Hn : Z.of_nat (length (id :: free_ids_ a))
                     <= Z.max 0 (kMaxOwnerItemId - kMinOwnerItemId + 1)).
        { apply NoDup_in_range_length.
          - apply NoDup_cons. split; [done | apply (inv_nodup _ HI)].
          - intros z Hz. apply elem_of_cons in Hz as [->|?]; auto. }
        simpl in Hn. lia. }
      rewrite Free_push by (done || lia). simpl.
      destruct HA as [?|[?|?]]; [|set_solver | by right; right].
      destruct (decide (x = id)) as [->|?]; set_solver.
Qed.

(** X9. When the free list has room for every id of the range
    ([kMaxOwnerItemId - kMinOwnerItemId + 1 <= kMaxFreeItemOwnersIdListSize])
    and the sentinel lies outside the range, a disciplined client loses no
    id: each id of the range is held, on the free list or still to come from
    the counter, and [Allocate] returns the sentinel only when the client
    holds every id of the range. *)
Theorem no_id_lost_when_free_list_has_room cs :
  consts_in_range ->
  kUnknownItemId < kMinOwnerItemId \/ kMaxOwnerItemId < kUnknownItemId ->
  kMaxOwnerItemId - kMinOwnerItemId + 1 <= kMaxFreeItemOwnersIdListSize ->
  disciplined cs fresh_world ->
  let w := (run cs fresh_world).1 in
  all_ids_accounted w /\
  ((Allocate (alloc w)).2 = kUnknownItemId ->
   forall x, kMinOwnerItemId <= x <= kMaxOwnerItemId -> x ∈ live w).
Proof.
  intros HK Hout Hroom Hd w.
  assert (Hall : Inv w /\ ids_in_range w /\ all_ids_accounted w).
  { subst w.
    assert (H0 : Inv fresh_world /\ ids_in_range fresh_world /\
                 all_ids_accounted fresh_world).
    { split_and!; [by apply Inv_fresh | by apply ids_in_range_fresh |].
      intros x Hx. right; right. split; simpl; [done | lia]. }
    revert H0 Hd. generalize fresh_world.
    induction cs as [|c cs IH]; intros w0 (HI & HR & HA) Hd.
    - done.
    - destruct Hd as [Hp Hd]. rewrite run_cons. simpl. apply IH; [|done].
      split_and!.
      + by apply Inv_step.
      + by apply ids_in_range_step.
      + by apply all_ids_accounted_step. }
  destruct Hall as (HI & (Hl & Hf & Hc) & HA). split; [done|].
  intros Hfail x Hx.
  destruct (free_ids_ (alloc w)) as [|y rest] eqn:E.
  - destruct (has_wrapped_around_ (alloc w)) eqn:W.
    + destruct (HA x Hx) as [?|[Hin|[Hw _]]]; [done | | congruence].
      rewrite E in Hin. set_solver.
    + rewrite (Allocate_counter _ E W) in Hfail. simpl in Hfail.
      specialize (Hc eq_refl). lia.
  - rewrite (Allocate_nonempty _ y rest E) in Hfail. simpl in Hfail.
    assert (kMinOwnerItemId <= y <= kMaxOwnerItemId)
      by (apply Hf; set_solver).
    lia.
Qed.

End AllocatorSequences.

Section MoreAllocatorRuns.
#[local] Existing Instance uint16_consts.

Lemma Discard_then_GetNext_round_trip_witness :
  let c := {| owner_id_allocator_ :=
                {| next_item_owner_id_ := 6; has_wrapped_around_ := false;
                   free_ids_ := [] |} |} in
  (DiscardItemOwnerId c 5).2 = 0 /\
  GetNextItemOwnerId (DiscardItemOwnerId c 5).1 = (c, 5).
Proof.
  intros c.
  assert (H1 : free_ids_ (owner_id_allocator_ c) = []) by reflexivity.
  assert (H2 : 5 <> kUnknownItemId) by discriminate.
  assert (H3 : 0 < kMaxFreeItemOwnersIdListSize) by reflexivity.
  exact (Discard_then_GetNext_round_trip c 5 H1 H2 H3).
Defined.

(** Also after a free of an id that was never handed out. *)
Lemma Allocate_fails_only_when_exhausted_witness :
  let a := alloc (run [CallAllocate; CallFree 1; CallFree 7] fresh_world).1 in
  (Allocate a).2 = 0 <-> has_wrapped_around_ a = true /\ free_ids_ a = [].
Proof.
  assert (H1 : consts_in_range) by (unfold consts_in_range; simpl; lia).
  assert (H2 : kUnknownItemId < kMinOwnerItemId \/
               kMaxOwnerItemId < kUnknownItemId) by (left; reflexivity).
  exact (Allocate_fails_only_when_exhausted
           [CallAllocate; CallFree 1; CallFree 7] H1 H2).
Defined.

Lemma freed_ids_come_back_in_order_witness :
  (run ((CallFree <$> [5; 3; 9]) ++ replicate 3 CallAllocate) fresh_world).2
  = [5; 3; 9].
Proof.
  assert (H1 : Forall (fun x => x <> kUnknownItemId) [5; 3; 9])
    by (repeat constructor; discriminate).
  assert (H2 : Z.of_nat (length (free_ids_ (alloc fresh_world))
                         + length [5; 3; 9])
               <= kMaxFreeItemOwnersIdListSize) by (simpl; lia).
  exact (proj1 (freed_ids_come_back_in_order fresh_world [5; 3; 9] H1 H2)).
Defined.

(** The second id returned, 2, is in 1..65535, and so is what is held at
    the end. *)
Lemma issued_ids_stay_in_range_witness :
  let cs := [CallAllocate; CallAllocate; CallFree 1; CallAllocate] in
  (2 = kUnknownItemId \/ kMinOwnerItemId <= 2 <= kMaxOwnerItemId) /\
  ids_in_range (run cs fresh_world).1.
Proof.
  intros cs.
  assert (H1 : consts_in_range) by (unfold consts_in_range; simpl; lia).
  assert (H2 : disciplined cs fresh_world) by (vm_compute; tauto).
  assert (H3 : 2 ∈ (run cs fresh_world).2)
    by (apply list_elem_of_In; vm_compute; tauto).
  destruct (issued_ids_stay_in_range cs H1 H2) as [Hout Hin].
  split; [exact (Hout 2 H3) | exact Hin].
Defined.

End MoreAllocatorRuns.

Section MoreTinyAllocatorRuns.
#[local] Existing Instance tiny_consts.

(** After ids 1..3 are gone the counter stays where it is: the freed 2
    comes back, then the sentinel. *)
Lemma exhaustion_is_permanent_witness :
  let w := (run [CallAllocate; CallAllocate; CallAllocate] fresh_world).1 in
  let cs := [CallFree 2; CallAllocate; CallAllocate] in
  has_wrapped_around_ (alloc (run cs w).1) = true /\
  next_item_owner_id_ (alloc (run cs w).1) = next_item_owner_id_ (alloc w).
Proof.
  intros w cs.
  destruct (exhaustion_is_permanent cs w) as (H1 & H2 & _).
  - reflexivity.
  - split; [exact H1 | exact H2].
Defined.

Example exhaustion_then_recycle_outputs :
  (run [CallAllocate; CallAllocate; CallAllocate;
        CallFree 2; CallAllocate; CallAllocate] fresh_world).2
  = [1; 2; 3; 2; 0].
Proof. reflexivity. Qed.

Lemma fresh_allocator_hands_out_the_whole_range_witness :
  (run (replicate (3 + 2) CallAllocate) fresh_world).2
  = seqZ 1 3 ++ replicate 2 0.
Proof.
  assert (H1 : consts_in_range) by (unfold consts_in_range; simpl; lia).
  assert (H2 : Z.of_nat 3 = kMaxOwnerItemId - kMinOwnerItemId + 1)
    by reflexivity.
  exact (fresh_allocator_hands_out_the_whole_range 3 2 H1 H2).
Defined.

End MoreTinyAllocatorRuns.

Section RoomyAllocatorRuns.
#[local] Existing Instance roomy_consts.

(** Ids 1..3 are handed out, 2 is freed and handed out again; the next
    [Allocate] fails, and the client indeed holds 1, 2 and 3. *)
Lemma no_id_lost_when_free_list_has_room_witness :
  let cs := [CallAllocate; CallAllocate; CallAllocate; CallFree 2;
             CallAllocate] in
  1 ∈ live (run cs fresh_world).1 /\ 2 ∈ live (run cs fresh_world).1 /\
  3 ∈ live (run cs fresh_world).1.
Proof.
  intros cs.
  assert (H1 : consts_in_range) by (unfold consts_in_range; simpl; lia).
  assert (H2 : kUnknownItemId < kMinOwnerItemId \/
               kMaxOwnerItemId < kUnknownItemId) by (left; reflexivity).
  assert (H3 : kMaxOwnerItemId - kMinOwnerItemId + 1
               <= kMaxFreeItemOwnersIdListSize) by (simpl; lia).
  assert (H4 : disciplined cs fresh_world) by (vm_compute; tauto).
  assert (H5 : (Allocate (alloc (run cs fresh_world).1)).2 = kUnknownItemId)
    by reflexivity.
  pose proof (proj2 (no_id_lost_when_free_list_has_room cs H1 H2 H3 H4) H5)
    as H.
  split_and!; apply H; simpl; lia.
Defined.

End RoomyAllocatorRuns.

(** * Further properties of the constructors *)
Section MoreConstructionFacts.
Context `{C : Collaborators}.

(** X10. In the full build a primary-cache string that contains ['='] is
    handed whole to [ParseStruct], starting from the default options and
    against the table whose keys are capacity, num_shard_bits,
    strict_capacity_limit, high_pri_pool_ratio and low_pri_pool_ratio; the
    status returned is the parser's, and the cache is built from the parsed
    options only if that status is ok. *)
Theorem Cache_CreateFromString_struct cfg value result :
  (In "="%char (list_ascii_of_string value) ->
   Cache_CreateFromString false cfg value result =
     (let '(status, cache_opts) :=
        ParseStruct _ _ cfg EmptyString lru_cache_options_type_info
          EmptyString value LRUCacheOptions_default in
      if ok status then (status, NewLRUCache cache_opts)
      else (status, result))) /\
  (forall k : string,
     is_Some (lru_cache_options_type_info !! k) <->
     k ∈ ["capacity"; "num_shard_bits"; "strict_capacity_limit";
          "high_pri_pool_ratio"; "low_pri_pool_ratio"]%string).
Proof.
  split.
  - intros Hin. unfold Cache_CreateFromString.
    destruct (Str.find_char value "=") as [n|] eqn:E.
    + destruct (ParseStruct _ _ _ _ _ _ _ _) as [st o].
      destruct (ok st) eqn:Eok; simpl; by rewrite Eok.
    + apply find_char_npos_iff in E. done.
  - intros k. rewrite <- elem_of_dom.
    unfold lru_cache_options_type_info.
    rewrite dom_list_to_map_L. simpl. set_solver.
Qed.

(** X11. What [Cache::CreateFromString] and the scheme path of
    [SecondaryCache::CreateFromString] return never depends on the object
    the caller's [result] held: the status is the same for any old value,
    and after an ok status so is the new value of [*result]. *)
Theorem CreateFromString_ignores_old_result lite cfg value :
  (forall r1 r2,
     (Cache_CreateFromString lite cfg value r1).1 =
     (Cache_CreateFromString lite cfg value r2).1 /\
     (ok (Cache_CreateFromString lite cfg value r1).1 = true ->
      (Cache_CreateFromString lite cfg value r1).2 =
      (Cache_CreateFromString lite cfg value r2).2)) /\
  (forall args r1 r2,
     value = String.append scheme args ->
     (SecondaryCache_CreateFromString lite cfg value r1).1 =
     (SecondaryCache_CreateFromString lite cfg value r2).1 /\
     (ok (SecondaryCache_CreateFromString lite cfg value r1).1 = true ->
      (SecondaryCache_CreateFromString lite cfg value r1).2 =
      (SecondaryCache_CreateFromString lite cfg value r2).2)).
Proof.
  split.
  - intros r1 r2. unfold Cache_CreateFromString.
    destruct (Str.find_char value "=") as [n|]; [|done].
    destruct lite; [done|].
    destruct (ParseStruct _ _ _ _ _ _ _ _) as [st o].
    destruct (ok st) eqn:E; simpl; rewrite E; simpl; [done|].
    split; [done | congruence].
  - intros args r1 r2 ->. rewrite !SecondaryCache_CreateFromString_scheme.
    unfold CompressedSecondaryCache_path. destruct lite; [done|].
    destruct (ParseStruct _ _ _ _ _ _ _ _) as [st o].
    destruct (ok st) eqn:E; simpl; rewrite E; simpl; [done|].
    split; [done | congruence].
Qed.

End MoreConstructionFacts.

Section MoreConstructionRuns.
#[local] Existing Instance Sample.types.
#[local] Existing Instance Sample.collaborators.

Lemma Cache_CreateFromString_struct_witness :
  Cache_CreateFromString false Sample.cfg "capacity=2048;num_shard_bits=2"
    Sample.old_cache =
  (let '(status, cache_opts) :=
     ParseStruct _ _ Sample.cfg EmptyString lru_cache_options_type_info
       EmptyString "capacity=2048;num_shard_bits=2" LRUCacheOptions_default in
   if ok status then (status, NewLRUCache cache_opts)
   else (status, Sample.old_cache)).
Proof.
  destruct (Cache_CreateFromString_struct Sample.cfg
              "capacity=2048;num_shard_bits=2" Sample.old_cache) as [H _].
  apply H. simpl. tauto.
Defined.

Lemma CreateFromString_ignores_old_result_witness :
  (Cache_CreateFromString false Sample.cfg "4096" Sample.old_cache).2 =
  (Cache_CreateFromString false Sample.cfg "4096" None).2 /\
  (SecondaryCache_CreateFromString true Sample.cfg
     "compressed_secondary_cache://capacity=1" Sample.old_secondary).1 =
  (SecondaryCache_CreateFromString true Sample.cfg
     "compressed_secondary_cache://capacity=1" None).1.
Proof.
  split.
  - destruct (CreateFromString_ignores_old_result false Sample.cfg "4096")
      as [H _].
    apply (H Sample.old_cache None). reflexivity.
  - destruct (CreateFromString_ignores_old_result true Sample.cfg
                "compressed_secondary_cache://capacity=1") as [_ H].
    apply (H "capacity=1"%string Sample.old_secondary None). reflexivity.
Defined.

End MoreConstructionRuns.
